(** * Synthetic MDP generator, tabular solvers and replay recorder

    A shallow embedding of

    - [src/mini_rl_lib/random_mdp_factory.py]  ([Module Factory]),
    - [src/mini_rl_lib/policies.py]            ([Module Policies]),
    - [src/data.py]                            ([Module Data]),

    followed by what is proved about them ([FactoryFacts],
    [PoliciesFacts], [DataFacts]).

    Conventions.  Python floats are idealised as exact rationals ([Q]):
    rounding, infinities and NaN are not modelled.  State and action
    indices are natural numbers, reward values are integers ([Z]).  A
    Python exception is the [None] of an [option], or the [Raised] of an
    [Outcome] where a loop may also run out of fuel.  The modules
    [enums], [mdp], [utils] and [mdp_factory] are not part of the
    sources at hand; what the code uses of them is a parameter of the
    embedding. *)

From Stdlib Require Import ZArith QArith Qabs Lqa Lia List Bool Sorted.
From stdpp Require Import base option list.
Import ListNotations.

Set Default Proof Using "Type".

(** * Part I: the programs *)

(** ** Enumerations (as used from [enums.MDPTransitionType] and
       [enums.MDPRewardType]) *)

Inductive MDPTransitionType :=
  | S_DETERMINISTIC
  | S_PROBABILISTIC
  | SA_DETERMINISTIC
  | SA_PROBABILISTIC
  | SAS.

Module MDPRewardType.
Inductive t := S | SA | SAS | SASR.
End MDPRewardType.

(** ** The fragment of numpy the sources rely on *)

Module Numpy.

(** An n-dimensional array as nested rows; [Scalar] is a 0-d element. *)
#[warnings="-register-all"]
Inductive ndarray (A : Type) : Type :=
  | Scalar (x : A)
  | Array (rows : list (ndarray A)).
Arguments Scalar {A} x.
Arguments Array {A} rows.

(** [arr[i0, i1, ...]] with non-negative indices; [None] is IndexError. *)
Fixpoint getitem {A} (arr : ndarray A) (idx : list nat) : option (ndarray A) :=
  match idx with
  | [] => Some arr
  | i :: idx' =>
      match arr with
      | Scalar _ => None
      | Array rows => sub ← rows !! i; getitem sub idx'
      end
  end.

(** [len(arr)]; [None] is the TypeError raised on a 0-d value. *)
Definition len {A} (arr : ndarray A) : option nat :=
  match arr with
  | Scalar _ => None
  | Array rows => Some (length rows)
  end.

(** Iterating an array yields its rows. *)
Definition iter {A} (arr : ndarray A) : option (list (ndarray A)) :=
  match arr with
  | Scalar _ => None
  | Array rows => Some rows
  end.

Fixpoint arange_from (start step : Z) (n : nat) : list Z :=
  match n with
  | O => []
  | Datatypes.S n' => start :: arange_from (start + step) step n'
  end.

(** [np.arange(start, stop, step)] on integers, [step > 0]:
    [ceil((stop - start) / step)] values spaced by [step]. *)
Definition arange (start stop step : Z) : list Z :=
  arange_from start step (Z.to_nat ((stop - start + step - 1) / step)).

(** [np.arange(n)] *)
Definition arange0 (n : nat) : list nat := seq 0 n.

(** [np.zeros(n)] *)
Definition zeros {A} (zero : A) (n : nat) : list A := replicate n zero.

Definition keep_larger (m y : Q) : Q := if Qlt_le_dec m y then y else m.

(** [np.max] of a 1-d array: a running maximum replaced only by a
    strictly larger element; [None] is the ValueError on an empty array. *)
Definition max (xs : list Q) : option Q :=
  match xs with
  | [] => None
  | x :: xs' => Some (fold_left keep_larger xs' x)
  end.

(** The scan of [np.argmax]: [best] is the position of the running
    maximum [m], [i] the position of the head of [xs]. *)
Fixpoint argmax_from (xs : list Q) (i : nat) (best : nat) (m : Q) : nat :=
  match xs with
  | [] => best
  | y :: xs' =>
      if Qlt_le_dec m y then argmax_from xs' (Datatypes.S i) i y
      else argmax_from xs' (Datatypes.S i) best m
  end.

(** [np.argmax]: the index of the first occurrence of the maximum. *)
Definition argmax (xs : list Q) : option nat :=
  match xs with
  | [] => None
  | x :: xs' => Some (argmax_from xs' 1 0 x)
  end.

End Numpy.

(** ** Builtins of Python *)

Module Py.

(** [list(l).index(x)]; [None] is ValueError. *)
Fixpoint index (x : Z) (l : list Z) : option nat :=
  match l with
  | [] => None
  | y :: l' => if Z.eqb y x then Some O else Datatypes.S <$> index x l'
  end.

(** [dict(zip(keys, vals))] with pairwise distinct keys, as the list of
    its items in insertion order. *)
Definition dict_zip {K V} (keys : list K) (vals : list V) : list (K * V) :=
  zip keys vals.

(** [max(a, b)]: the first argument unless the second is larger. *)
Definition max2 (a b : Q) : Q := if Qlt_le_dec a b then b else a.

(** [l[i] = x]; [None] is IndexError. *)
Definition setitem {A} (l : list A) (i : nat) (x : A) : option (list A) :=
  if decide (i < length l)%nat then Some (<[i := x]> l) else None.

(** A value that may be [None] or a [bool], and its truth value. *)
Inductive value := PyNone | PyBool (b : bool).

Definition truthy (v : value) : bool :=
  match v with
  | PyNone => false
  | PyBool b => b
  end.

End Py.

(** ** Loops *)

(** [for x in xs: st = body(x, st)], stopping at the first exception. *)
Fixpoint for_each {X St} (xs : list X) (body : X -> St -> option St) (st : St)
  : option St :=
  match xs with
  | [] => Some st
  | x :: xs' => st' ← body x st; for_each xs' body st'
  end.

(** [range(n)] *)
Definition range (n : nat) : list nat := seq 0 n.

(** ** [random_mdp_factory.py]: [MDPFactory.__init__] *)

Module Factory.
Import Numpy.

(** What [transition_function] hands back: an array element or slice,
    or a dictionary from next state to array element. *)
Inductive result (A : Type) :=
  | Elem (x : ndarray A)
  | Dict (items : list (nat * ndarray A)).
Arguments Elem {A} x.
Arguments Dict {A} items.

(** [all_rewards = np.arange(-n_rewards + 2, 2, 1)] *)
Definition all_rewards (n_rewards : Z) : list Z :=
  arange (- n_rewards + 2) 2 1.

(** The two closures of [__init__].  They capture the kinds, the
    tables [self.transitions] and [self.rewards] (produced by [utils],
    of whatever element type [A]) and [all_rewards]. *)
Section Closures.
Context {A : Type}.
Variable transition_function_type : MDPTransitionType.
Variable reward_function_type : MDPRewardType.t.
Variable transitions : ndarray A.
Variable rewards : ndarray A.
Variable n_rewards : Z.

(** [dict(zip(np.arange(len(probas)), probas))] *)
Definition probas_dict (probas : ndarray A) : option (result A) :=
  n ← len probas;
  rows ← iter probas;
  Some (Dict (Py.dict_zip (arange0 n) rows)).

(** [next_s] is [None] when the caller passes Python's [None]; as an
    index numpy reads it as a new axis. *)
Definition transition_function (s a : nat) (next_s : option nat)
  : option (result A) :=
  match transition_function_type with
  | S_DETERMINISTIC => Elem <$> getitem transitions [s]
  | S_PROBABILISTIC => probas ← getitem transitions [s]; probas_dict probas
  | SA_DETERMINISTIC => Elem <$> getitem transitions [s; a]
  | SA_PROBABILISTIC => probas ← getitem transitions [s; a]; probas_dict probas
  | SAS =>
      match next_s with
      | Some next_s => Elem <$> getitem transitions [s; a; next_s]
      | None => row ← getitem transitions [s; a]; Some (Elem (Array [row]))
      end
  end.

Definition reward_function (s a next_s : nat) (r : option Z)
  : option (ndarray A) :=
  match reward_function_type with
  | MDPRewardType.S => getitem rewards [s]
  | MDPRewardType.SA => getitem rewards [s; a]
  | MDPRewardType.SAS => getitem rewards [s; a; s]
  | MDPRewardType.SASR =>
      r ← r;
      i ← Py.index r (all_rewards n_rewards);
      getitem rewards [s; a; next_s; i]
  end.

End Closures.

(** A reward table for two states and one action:
    [rewards[0, 0, 0] = 0] and [rewards[0, 0, 1] = 1]. *)
Definition sas_table : ndarray Z :=
  Array [Array [Array [Scalar 0%Z; Scalar 1%Z]];
         Array [Array [Scalar 0%Z; Scalar 0%Z]]].

End Factory.

(** ** [policies.py]: the tabular solvers *)

Module Policies.

(** How a loop that needs fuel can end: normally, by an exception, or
    still running when the fuel is spent. *)
Inductive Outcome (A : Type) :=
  | Done (x : A)
  | Raised
  | Timeout.
Arguments Done {A} x.
Arguments Raised {A}.
Arguments Timeout {A}.

(** [model.config] as far as the solvers read it. *)
Record MDPConfig := {
  n_states : nat;
  n_actions : nat;
  transition_function_type : MDPTransitionType;
  reward_function_type : MDPRewardType.t
}.

(** What [model.transition_function] may return: a next state, a
    dictionary from next state to probability, or one probability. *)
Inductive transition_value :=
  | NextState (next_s : nat)
  | NextProbs (items : list (nat * Q))
  | Proba (p : Q).

(** [mdp.MDP] as the solvers use it: its config, the two callables
    installed by [MDP.init] (taken to return, with [None] a possible
    last argument), and the reward values. *)
Record MDP := {
  config : MDPConfig;
  transition_function : nat -> nat -> option nat -> transition_value;
  reward_function : nat -> nat -> nat -> option Z -> Q;
  all_rewards : list Z
}.

(** The attributes of a [DeterministicMDPPolicy] object. *)
Record DeterministicMDPPolicy := {
  model : MDP;
  gamma : Q;
  eps : Q;
  _values : list Q;
  _policy : list nat
}.

Definition set_values (self : DeterministicMDPPolicy) (values : list Q) :=
  {| model := model self; gamma := gamma self; eps := eps self;
     _values := values; _policy := _policy self |}.

Definition set_policy (self : DeterministicMDPPolicy) (policy : list nat) :=
  {| model := model self; gamma := gamma self; eps := eps self;
     _values := _values self; _policy := policy |}.

(** [DeterministicMDPPolicy.__init__] *)
Definition __init__ (model : MDP) (gamma eps : Q) : DeterministicMDPPolicy :=
  {| model := model; gamma := gamma; eps := eps;
     _values := Numpy.zeros 0%Q (n_states (config model));
     _policy := Numpy.zeros 0%nat (n_states (config model)) |}.

(** A transition value used as a list index ([self._values[next_s]]):
    only an integer will do. *)
Definition as_index (v : transition_value) : option nat :=
  match v with
  | NextState next_s => Some next_s
  | _ => None
  end.

(** A transition value used as a number ([p_s * ...]). *)
Definition as_number (v : transition_value) : option Q :=
  match v with
  | NextState n => Some (inject_Z (Z.of_nat n))
  | Proba p => Some p
  | NextProbs _ => None
  end.

(** A transition value used as a dictionary ([.items()]). *)
Definition items (v : transition_value) : option (list (nat * Q)) :=
  match v with
  | NextProbs d => Some d
  | _ => None
  end.

Definition is_SASR (k : MDPRewardType.t) : bool :=
  match k with
  | MDPRewardType.SASR => true
  | _ => false
  end.

Section UpdateValue.
Variable m : MDP.
Variable gamma : Q.
Variable values : list Q.

(** The nested function [get_value] of [_update_value]. *)
Definition get_value (s a next_s : nat) : option Q :=
  if negb (is_SASR (reward_function_type (config m))) then
    let r := reward_function m s a next_s None in
    v_next ← values !! next_s;
    Some (r + gamma * v_next)%Q
  else
    for_each (all_rewards m)
      (fun r v =>
         let p_r := reward_function m s a next_s (Some r) in
         v_next ← values !! next_s;
         Some (v + p_r * (inject_Z r + gamma * v_next))%Q)
      0%Q.

Definition update_value (s a : nat) : option Q :=
  match transition_function_type (config m) with
  | S_DETERMINISTIC | SA_DETERMINISTIC =>
      next_s ← as_index (transition_function m s a None);
      get_value s a next_s
  | S_PROBABILISTIC | SA_PROBABILISTIC =>
      next_s_probs ← items (transition_function m s a None);
      for_each next_s_probs
        (fun '(next_s, p_s) v =>
           g ← get_value s a next_s;
           Some (v + p_s * g)%Q)
        0%Q
  | SAS =>
      for_each (range (n_states (config m)))
        (fun next_s v =>
           p_s ← as_number (transition_function m s a (Some next_s));
           g ← get_value s a next_s;
           Some (v + p_s * g)%Q)
        0%Q
  end.

End UpdateValue.

(** *** The Q-value the solvers are meant to compute

    [Q(s,a) = Σ_{s'} P(s'|s,a) * Σ_r P(r|s,a,s') * (r + γ·V(s'))],
    written after the specification: the inner sum is the scalar
    [r + γ·V(s')] for the reward kinds other than [SASR], the outer sum
    is the single successor's term for the deterministic kinds. *)

Section QValue.
Variable m : MDP.
Variable gamma : Q.
Variable values : list Q.

(** [Σ_{x in xs} f x], accumulated from 0 in the order of [xs]. *)
Definition sumQ {X} (f : X -> Q) (xs : list X) : Q :=
  fold_left (fun acc x => acc + f x)%Q xs 0%Q.

Definition V (s' : nat) : Q := default 0%Q (values !! s').

(** [P(r | s, a, s')] and the scalar reward of the other kinds *)
Definition P_reward (s a s' : nat) (r : Z) : Q := reward_function m s a s' (Some r).
Definition scalar_reward (s a s' : nat) : Q := reward_function m s a s' None.

(** [Σ_r P(r|s,a,s') * (r + γ·V(s'))] *)
Definition expected_return (s a s' : nat) : Q :=
  match reward_function_type (config m) with
  | MDPRewardType.SASR =>
      sumQ (fun r => P_reward s a s' r * (inject_Z r + gamma * V s'))%Q (all_rewards m)
  | _ => (scalar_reward s a s' + gamma * V s')%Q
  end.

Definition Q_value (s a : nat) : Q :=
  match transition_function_type (config m) with
  | S_DETERMINISTIC | SA_DETERMINISTIC =>
      match transition_function m s a None with
      | NextState s' => expected_return s a s'
      | _ => 0%Q
      end
  | S_PROBABILISTIC | SA_PROBABILISTIC =>
      match transition_function m s a None with
      | NextProbs d => sumQ (fun '(s', p) => p * expected_return s a s')%Q d
      | _ => 0%Q
      end
  | SAS =>
      sumQ (fun s' =>
              default 0%Q (as_number (transition_function m s a (Some s')))
              * expected_return s a s')%Q
           (range (n_states (config m)))
  end.

(** The transition value of [(s, a)] has the shape its kind promises and
    names only states below [n]. *)
Definition value_ok (n s a : nat) : bool :=
  match transition_function_type (config m) with
  | S_DETERMINISTIC | SA_DETERMINISTIC =>
      match transition_function m s a None with
      | NextState s' => s' <? n
      | _ => false
      end
  | S_PROBABILISTIC | SA_PROBABILISTIC =>
      match transition_function m s a None with
      | NextProbs d => forallb (fun '(s', _) => s' <? n) d
      | _ => false
      end
  | SAS =>
      forallb (fun s' =>
                 match transition_function m s a (Some s') with
                 | NextProbs _ => false
                 | _ => true
                 end)
              (range (n_states (config m)))
      && (n_states (config m) <=? n)
  end.

End QValue.

(** [DeterministicMDPPolicy._update_value] *)
Definition _update_value (self : DeterministicMDPPolicy) (s a : nat) : option Q :=
  update_value (model self) (gamma self) (_values self) s a.

(** The list [values] filled by [for a in range(n_actions)]. *)
Definition action_values (self : DeterministicMDPPolicy) (s : nat)
  : option (list Q) :=
  mapM (fun a => _update_value self s a)
       (range (n_actions (config (model self)))).

Module ValueIteration.

(** The body of [for s in range(n_states)] in [fit]; the loop carries
    the object and [delta]. *)
Definition sweep_state (s : nat) (st : DeterministicMDPPolicy * Q)
  : option (DeterministicMDPPolicy * Q) :=
  let '(self, delta) := st in
  v ← _values self !! s;
  values ← action_values self s;
  mx ← Numpy.max values;
  values' ← Py.setitem (_values self) s mx;
  let self := set_values self values' in
  am ← Numpy.argmax values;
  policy' ← Py.setitem (_policy self) s am;
  let self := set_policy self policy' in
  v' ← _values self !! s;
  Some (self, Py.max2 delta (Qabs (v - v'))).

(** One pass of the [while] body: [delta = 0] and the sweep. *)
Definition sweep (self : DeterministicMDPPolicy)
  : option (DeterministicMDPPolicy * Q) :=
  for_each (range (n_states (config (model self)))) sweep_state (self, 0%Q).

(** [while delta > self.eps: ...] *)
Fixpoint while_delta (fuel : nat) (self : DeterministicMDPPolicy) (delta : Q)
  : Outcome DeterministicMDPPolicy :=
  if Qlt_le_dec (eps self) delta then
    match fuel with
    | O => Timeout
    | S fuel' =>
        match sweep self with
        | None => Raised
        | Some (self', delta') => while_delta fuel' self' delta'
        end
    end
  else Done self.

(** [ValueIteration.fit] *)
Definition fit (fuel : nat) (self : DeterministicMDPPolicy)
  : Outcome DeterministicMDPPolicy :=
  while_delta fuel self (eps self + 1)%Q.

End ValueIteration.

Module PolicyIteration.

(** [_update_policy] *)
Definition _update_policy (self : DeterministicMDPPolicy) (s : nat) : option nat :=
  values ← action_values self s;
  Numpy.argmax values.

Definition evaluate_state (s : nat) (st : DeterministicMDPPolicy * Q)
  : option (DeterministicMDPPolicy * Q) :=
  let '(self, delta) := st in
  v ← _values self !! s;
  a ← _policy self !! s;
  q ← _update_value self s a;
  values' ← Py.setitem (_values self) s q;
  let self := set_values self values' in
  v' ← _values self !! s;
  Some (self, Py.max2 delta (Qabs (v - v'))).

Definition evaluation_sweep (self : DeterministicMDPPolicy)
  : option (DeterministicMDPPolicy * Q) :=
  for_each (range (n_states (config (model self)))) evaluate_state (self, 0%Q).

Fixpoint evaluation_while (fuel : nat) (self : DeterministicMDPPolicy) (delta : Q)
  : Outcome DeterministicMDPPolicy :=
  if Qlt_le_dec (eps self) delta then
    match fuel with
    | O => Timeout
    | S fuel' =>
        match evaluation_sweep self with
        | None => Raised
        | Some (self', delta') => evaluation_while fuel' self' delta'
        end
    end
  else Done self.

(** [_policy_evaluation]: the method has no [return] statement, so its
    value is [None]. *)
Definition _policy_evaluation (fuel : nat) (self : DeterministicMDPPolicy)
  : Outcome (DeterministicMDPPolicy * Py.value) :=
  match evaluation_while fuel self (eps self + 1)%Q with
  | Done self' => Done (self', Py.PyNone)
  | Raised => Raised
  | Timeout => Timeout
  end.

Definition improve_state (s : nat) (st : DeterministicMDPPolicy * bool)
  : option (DeterministicMDPPolicy * bool) :=
  let '(self, policy_stable) := st in
  a ← _policy self !! s;
  a' ← _update_policy self s;
  policy' ← Py.setitem (_policy self) s a';
  let self := set_policy self policy' in
  a'' ← _policy self !! s;
  Some (self, if decide (a'' <> a) then false else policy_stable).

(** [_policy_improvement]: returns [policy_stable]. *)
Definition _policy_improvement (self : DeterministicMDPPolicy)
  : option (DeterministicMDPPolicy * Py.value) :=
  '(self', policy_stable) ←
    for_each (range (n_states (config (model self)))) improve_state (self, true);
  Some (self', Py.PyBool policy_stable).

(** [while not policy_stable: ...]; the value of
    [self._policy_improvement()] is dropped and [policy_stable] is bound
    to the value of [self._policy_evaluation()].  Every call of
    [_policy_evaluation] may use [budget] iterations of its own loop. *)
Fixpoint while_not_stable (budget fuel : nat) (self : DeterministicMDPPolicy)
    (policy_stable : Py.value) : Outcome DeterministicMDPPolicy :=
  if negb (Py.truthy policy_stable) then
    match fuel with
    | O => Timeout
    | S fuel' =>
        match _policy_improvement self with
        | None => Raised
        | Some (self1, _) =>
            match _policy_evaluation budget self1 with
            | Done (self2, ret) => while_not_stable budget fuel' self2 ret
            | Raised => Raised
            | Timeout => Timeout
            end
        end
    end
  else Done self.

(** [PolicyIteration.fit] *)
Definition fit (fuel : nat) (self : DeterministicMDPPolicy)
  : Outcome DeterministicMDPPolicy :=
  while_not_stable fuel fuel self (Py.PyBool false).

End PolicyIteration.

(** *** Notions used to state what the solvers do *)

(** The row [Q(s, 0), ..., Q(s, n_actions - 1)] over a value table. *)
Definition Q_row (m : MDP) (gamma : Q) (values : list Q) (s : nat)
  : option (list Q) :=
  mapM (update_value m gamma values s) (range (n_actions (config m))).

(** State [s] has been backed up from [self] to [self']: with the value
    table in force when the sweep visits [s] (new below [s], old from
    [s] on), [V'(s)] is [Q(s, a)] for the action [a = policy'(s)], no
    action has a larger Q-value, and every action before [a] has a
    strictly smaller one. *)
Definition backed_up (self self' : DeterministicMDPPolicy) (s : nat) : Prop :=
  let m := model self in
  let W := take s (_values self') ++ drop s (_values self) in
  exists v a,
    _values self' !! s = Some v
    /\ _policy self' !! s = Some a
    /\ (a < n_actions (config m))%nat
    /\ update_value m (gamma self) W s a = Some v
    /\ forall b, (b < n_actions (config m))%nat ->
         exists q, update_value m (gamma self) W s b = Some q
                   /\ (q <= v)%Q /\ ((b < a)%nat -> (q < v)%Q).

(** [delta] is the largest [|V(s) - V'(s)|] over the states below [n]. *)
Definition max_change (n : nat) (values values' : list Q) (delta : Q) : Prop :=
  (forall s v v', (s < n)%nat -> values !! s = Some v -> values' !! s = Some v' ->
     (Qabs (v - v') <= delta)%Q)
  /\ (n = 0%nat -> delta = 0%Q)
  /\ ((0 < n)%nat ->
      exists s v v', (s < n)%nat /\ values !! s = Some v /\ values' !! s = Some v'
                     /\ (delta == Qabs (v - v'))%Q).

(** [k] passes of the [while] body, carrying the object and [delta]. *)
Fixpoint sweeps (k : nat) (st : DeterministicMDPPolicy * Q)
  : option (DeterministicMDPPolicy * Q) :=
  match k with
  | O => Some st
  | S k' => st' ← ValueIteration.sweep (fst st); sweeps k' st'
  end.

(** The first [k] states of a sweep. *)
Definition sweep_upto (k : nat) (self : DeterministicMDPPolicy) :=
  for_each (range k) ValueIteration.sweep_state (self, 0%Q).

(** What holds after the first [k] states of a sweep. *)
Record swept (k : nat) (self self' : DeterministicMDPPolicy) (delta : Q) : Prop := {
  swept_model : model self' = model self;
  swept_gamma : gamma self' = gamma self;
  swept_eps : eps self' = eps self;
  swept_values_length : length (_values self') = length (_values self);
  swept_policy_length : length (_policy self') = length (_policy self);
  swept_bound : (k <= length (_values self))%nat;
  swept_rest : forall s, (k <= s)%nat ->
    _values self' !! s = _values self !! s /\ _policy self' !! s = _policy self !! s;
  swept_done : forall s, (s < k)%nat -> backed_up self self' s;
  swept_delta : max_change k (_values self) (_values self') delta;
  swept_delta_nonneg : (0 <= delta)%Q
}.

(** Every transition value of the model has the shape of its kind and
    names states of the model. *)
Definition model_ok (m : MDP) : bool :=
  forallb (fun s =>
             forallb (fun a => value_ok m (n_states (config m)) s a)
                     (range (n_actions (config m))))
          (range (n_states (config m))).

Record well_formed (self : DeterministicMDPPolicy) : Prop := {
  wf_model : model_ok (model self) = true;
  wf_actions : (0 < n_actions (config (model self)))%nat;
  wf_values : length (_values self) = n_states (config (model self));
  wf_policy : length (_policy self) = n_states (config (model self));
  wf_policy_range : forall s a,
    _policy self !! s = Some a -> (a < n_actions (config (model self)))%nat
}.

(** *** Worked instances *)

(** One state and one action: the state loops on itself with reward 0. *)
Definition loop_mdp : MDP := {|
  config := {| n_states := 1; n_actions := 1;
               transition_function_type := S_DETERMINISTIC;
               reward_function_type := MDPRewardType.S |};
  transition_function := fun _ _ _ => NextState 0;
  reward_function := fun _ _ _ _ => 0%Q;
  all_rewards := [0; 1]%Z
|}.

(** Two states and two actions: action [a] leads to state [a], and only
    action 1 pays, a reward of 1. *)
Definition two_state_mdp : MDP := {|
  config := {| n_states := 2; n_actions := 2;
               transition_function_type := SA_DETERMINISTIC;
               reward_function_type := MDPRewardType.SA |};
  transition_function := fun _ a _ => NextState a;
  reward_function := fun _ a _ _ => match a with 1%nat => 1%Q | _ => 0%Q end;
  all_rewards := [0; 1]%Z
|}.

(** Two states and two actions with a full transition tensor and a
    reward distribution: every next state and every reward value has
    probability 1/2. *)
Definition coin_mdp : MDP := {|
  config := {| n_states := 2; n_actions := 2;
               transition_function_type := SAS;
               reward_function_type := MDPRewardType.SASR |};
  transition_function := fun _ _ _ => Proba (1 # 2);
  reward_function := fun _ _ _ _ => (1 # 2)%Q;
  all_rewards := [0; 1]%Z
|}.

Definition coin_solver : DeterministicMDPPolicy :=
  set_values (__init__ coin_mdp (1 # 2) (1 # 1000)) [1; 2]%Q.

Definition loop_solver : DeterministicMDPPolicy :=
  __init__ loop_mdp (99 # 100) (1 # 1000).

(** *** The remaining methods of [DeterministicMDPPolicy] *)

(** How a method with [assert] statements ends: it returns, or an
    assertion fails; either way the object is as the statements
    executed so far left it. *)
Inductive Asserting :=
  | Returned (self : DeterministicMDPPolicy)
  | AssertionError (self : DeterministicMDPPolicy).

(** [np.all(policy >= 0) and np.all(policy < n_actions)] *)
Definition in_action_range (n_actions : nat) (policy : list Z) : bool :=
  forallb (fun a => (0 <=? a)%Z) policy
  && forallb (fun a => (a <? Z.of_nat n_actions)%Z) policy.

(** [DeterministicMDPPolicy.init]; an argument left at its default is
    [None].  The policy handed in is an array of integers of either
    sign; once the assertions have passed its entries are indices.
    (That the object then shares the caller's arrays is not modelled.) *)
Definition init (self : DeterministicMDPPolicy)
    (values : option (list Q)) (policy : option (list Z)) : Asserting :=
  let n := n_states (config (model self)) in
  let after_values :=
    match values with
    | Some values =>
        if decide (length values = n) then Returned (set_values self values)
        else AssertionError self
    | None => Returned self
    end in
  match after_values with
  | AssertionError self => AssertionError self
  | Returned self =>
      match policy with
      | Some policy =>
          if decide (length policy = n) then
            if in_action_range (n_actions (config (model self))) policy then
              Returned (set_policy self (Z.to_nat <$> policy))
            else AssertionError self
          else AssertionError self
      | None => Returned self
      end
  end.

(** [get_policy] *)
Definition get_policy (self : DeterministicMDPPolicy) : list nat := _policy self.

(** *** Notions used to state what policy iteration does *)

(** Action [a] is the first greedy action of state [s] over the value
    table [values], with Q-value [v]. *)
Definition greedy (m : MDP) (gamma : Q) (values : list Q) (s a : nat) (v : Q) : Prop :=
  (a < n_actions (config m))%nat
  /\ update_value m gamma values s a = Some v
  /\ forall b, (b < n_actions (config m))%nat ->
       exists q, update_value m gamma values s b = Some q
                 /\ (q <= v)%Q /\ ((b < a)%nat -> (q < v)%Q).

(** State [s] has been evaluated from [self] to [self']: [V'(s)] is the
    Q-value of the policy's action over the table in force when the
    sweep visits [s]. *)
Definition evaluated (self self' : DeterministicMDPPolicy) (s : nat) : Prop :=
  let W := take s (_values self') ++ drop s (_values self) in
  exists a v,
    _policy self !! s = Some a
    /\ _values self' !! s = Some v
    /\ update_value (model self) (gamma self) W s a = Some v.

(** What holds after the first [k] states of an evaluation sweep. *)
Record evaluated_upto (k : nat) (self self' : DeterministicMDPPolicy) (delta : Q)
  : Prop := {
  ev_model : model self' = model self;
  ev_gamma : gamma self' = gamma self;
  ev_eps : eps self' = eps self;
  ev_policy : _policy self' = _policy self;
  ev_length : length (_values self') = length (_values self);
  ev_bound : (k <= length (_values self))%nat;
  ev_rest : forall s, (k <= s)%nat -> _values self' !! s = _values self !! s;
  ev_done : forall s, (s < k)%nat -> evaluated self self' s;
  ev_delta : max_change k (_values self) (_values self') delta;
  ev_delta_nonneg : (0 <= delta)%Q
}.

(** What holds after the first [k] states of an improvement pass. *)
Record improved_upto (k : nat) (self self' : DeterministicMDPPolicy) (stable : bool)
  : Prop := {
  im_model : model self' = model self;
  im_gamma : gamma self' = gamma self;
  im_eps : eps self' = eps self;
  im_values : _values self' = _values self;
  im_length : length (_policy self') = length (_policy self);
  im_bound : (k <= length (_policy self))%nat;
  im_rest : forall s, (k <= s)%nat -> _policy self' !! s = _policy self !! s;
  im_done : forall s, (s < k)%nat ->
    exists a v, _policy self' !! s = Some a
                /\ greedy (model self) (gamma self) (_values self) s a v;
  im_stable : stable = true <->
    forall s, (s < k)%nat -> _policy self' !! s = _policy self !! s
}.



Definition two_state_solver : DeterministicMDPPolicy :=
  __init__ two_state_mdp (1 # 2) (1 # 10).

End Policies.

(** ** [data.py]: [create] *)

Module Data.

(** What [model.step(action)] returns ([info] carries no data the
    recorder reads). *)
Record StepResult := {
  next_state : nat;
  reward : Q;
  terminated : bool;
  truncated : bool
}.

(** The [player] of a replay step. *)
Inductive Player := PolicyPlayer | RandomPlayer.

(** The calls [create] makes on its collaborators, with their results. *)
Inductive Call :=
  | CallReset (seed : Z) (state : nat)
  | CallRandom (u : Q)
  | CallSample (action : nat)
  | CallStep (player : option Player) (action : nat) (res : StepResult).

(** [item = [states, actions, rewards, times]] *)
Record Item := {
  item_states : list nat;
  item_actions : list nat;
  item_rewards : list Q;
  item_times : list nat
}.

Record Metadata := {
  n_states : nat;
  n_actions : nat;
  n_rewards : Z;
  target_return : Q;
  data_min_step : nat;
  data_max_step : nat;
  terminate_state_p : Q;
  random_play_p : Q;
  n_replay : nat
}.

(** What [create] writes ([metadata.json], [data.json]) and, for the
    statements below, the calls it made: during the expert rollout and
    during each replay. *)
Record Output := {
  metadata : Metadata;
  data : list Item;
  expert_calls : list Call;
  replay_calls : list (list Call)
}.

(** The variables of the expert rollout. *)
Record Expert (World : Type) := {
  expert_world : World;
  expert_state : nat;
  expert_target_return : Q;
  expert_log : list Call
}.
Arguments expert_world {World}.
Arguments expert_state {World}.
Arguments expert_target_return {World}.
Arguments expert_log {World}.

(** The variables of one replay; [t] is unbound ([None]) until the
    inner [for] assigns it. *)
Record Replay (World : Type) := {
  world : World;
  state : nat;
  states : list nat;
  actions : list nat;
  rewards : list Q;
  times : list nat;
  t : option nat;
  log : list Call
}.
Arguments world {World}.
Arguments state {World}.
Arguments states {World}.
Arguments actions {World}.
Arguments rewards {World}.
Arguments times {World}.
Arguments t {World}.
Arguments log {World}.

(** The variables that live across replays. *)
Record Recorder (World : Type) := {
  rec_world : World;
  rec_t : option nat;
  rec_min_step : nat;
  rec_max_step : nat;
  rec_data : list Item;
  rec_calls : list (list Call)
}.
Arguments rec_world {World}.
Arguments rec_t {World}.
Arguments rec_min_step {World}.
Arguments rec_max_step {World}.
Arguments rec_data {World}.
Arguments rec_calls {World}.

Definition stops (res : StepResult) : bool := terminated res || truncated res.

(** The step results, the sampled actions and the seeds in a list of calls. *)
Definition step_results (calls : list Call) : list StepResult :=
  omap (fun c => match c with CallStep _ _ res => Some res | _ => None end) calls.

Definition sampled (calls : list Call) : list nat :=
  omap (fun c => match c with CallSample a => Some a | _ => None end) calls.

Definition seeds (calls : list Call) : list Z :=
  omap (fun c => match c with CallReset seed _ => Some seed | _ => None end) calls.

Section Create.
(** Everything outside [create]: the model, numpy's global generator
    and the action space's generator make up the [World]. *)
Variable World : Type.
(** [factory.model.reset(seed=seed)], without [info] *)
Variable reset : Z -> World -> nat * World.
(** [factory.model.step(action)] *)
Variable step : nat -> World -> StepResult * World.
(** [factory.model._current_state] *)
Variable current_state : World -> nat.
(** [np.random.random()] *)
Variable random : World -> Q * World.
(** [factory.model.action_space.sample()] *)
Variable sample : World -> nat * World.
(** [policy[state]], for the trained [policy = factory.policy.get_policy()],
    which has an entry for every state of the model *)
Variable policy : nat -> nat.

(** [for _ in range(max_step)] of the expert rollout, [n] rounds to go. *)
Fixpoint expert_loop (n : nat) (e : Expert World) : Expert World :=
  match n with
  | O => e
  | S n' =>
      let action := policy (expert_state e) in
      let '(res, w) := step action (expert_world e) in
      let e' := {| expert_world := w;
                   expert_state := next_state res;
                   expert_target_return := (expert_target_return e + reward res)%Q;
                   expert_log := expert_log e ++ [CallStep None action res] |} in
      if stops res then e' else expert_loop n' e'
  end.

(** Lines 63-75. *)
Definition expert_rollout (max_step : nat) (seed : Z) (w0 : World) : Expert World :=
  let '(state, w) := reset seed w0 in
  expert_loop max_step
    {| expert_world := w; expert_state := state;
       expert_target_return := 0%Q;
       expert_log := [CallReset seed state] |}.

(** The body of [for t in range(max_step)], and whether it breaks.
    The conversions [int(state)], [int(action)], [float(reward)] and
    [int(t)] change nothing here. *)
Definition replay_step (random_play_p : Q) (t : nat) (r : Replay World)
  : Replay World * bool :=
  let '(u, w1) := random (world r) in
  let '(player, action, w2, drawn) :=
    if Qlt_le_dec u random_play_p then
      let '(action, w2) := sample w1 in
      (RandomPlayer, action, w2, [CallRandom u; CallSample action])
    else
      (PolicyPlayer, policy (state r), w1, [CallRandom u]) in
  let '(res, w3) := step action w2 in
  ({| world := w3;
      state := next_state res;
      states := states r ++ [state r];
      actions := actions r ++ [action];
      rewards := rewards r ++ [reward res];
      times := times r ++ [t];
      t := Some t;
      log := log r ++ drawn ++ [CallStep (Some player) action res] |},
   stops res).

Fixpoint replay_loop (random_play_p : Q) (ts : list nat) (r : Replay World)
  : Replay World :=
  match ts with
  | [] => r
  | t :: ts' =>
      let '(r', break) := replay_step random_play_p t r in
      if break then r' else replay_loop random_play_p ts' r'
  end.

(** The variables of a replay after
    [state, info = factory.model.reset(seed=seed)] and
    [state = factory.model._current_state]; [t] keeps whatever the
    previous replay left in it. *)
Definition replay_start (seed : Z) (rc : Recorder World) : Replay World :=
  let '(state, w) := reset seed (rec_world rc) in
  {| world := w; state := current_state w;
     states := []; actions := []; rewards := []; times := [];
     t := rec_t rc;
     log := [CallReset seed state] |}.

Definition item_of (r : Replay World) : Item :=
  {| item_states := states r; item_actions := actions r;
     item_rewards := rewards r; item_times := times r |}.

(** The replay that starts at [rc], when its inner loop is over. *)
Definition finished (max_step : nat) (random_play_p : Q) (seed : Z)
    (rc : Recorder World) : Replay World :=
  replay_loop random_play_p (range max_step) (replay_start seed rc).

(** The body of [for i in range(n_replay)]; reading [t] after a loop
    that never assigned it raises [UnboundLocalError]. *)
Definition replay (max_step : nat) (random_play_p : Q) (seed : Z)
    (i : nat) (rc : Recorder World) : option (Recorder World) :=
  let r := finished max_step random_play_p seed rc in
  t ← t r;
  let data_min_step := if (t <? rec_min_step rc)%nat then t else rec_min_step rc in
  let data_max_step := if (rec_max_step rc <? t)%nat then t else rec_max_step rc in
  let item := item_of r in
  Some {| rec_world := world r;
          rec_t := Some t;
          rec_min_step := data_min_step;
          rec_max_step := data_max_step;
          rec_data := rec_data rc ++ [item];
          rec_calls := rec_calls rc ++ [log r] |}.

(** [create], from the trained factory on; [None] when it raises. *)
Definition create (n_states n_actions : nat) (n_rewards : Z) (p : Q)
    (n_replay max_step : nat) (random_play_p : Q) (seed : Z) (w0 : World)
  : option Output :=
  let e := expert_rollout max_step seed w0 in
  rc ← for_each (range n_replay) (replay max_step random_play_p seed)
         {| rec_world := expert_world e; rec_t := None;
            rec_min_step := max_step; rec_max_step := 0;
            rec_data := []; rec_calls := [] |};
  Some {| metadata :=
            {| n_states := n_states; n_actions := n_actions;
               n_rewards := n_rewards;
               target_return := expert_target_return e;
               data_min_step := rec_min_step rc;
               data_max_step := rec_max_step rc;
               terminate_state_p := p;
               random_play_p := random_play_p;
               n_replay := n_replay |};
          data := rec_data rc;
          expert_calls := expert_log e;
          replay_calls := rec_calls rc |}.

(** *** Notions used to state what [create] records *)

(** The four lists grow together, one entry per call of [step]. *)
Definition aligned (r : Replay World) : Prop :=
  length (states r) = length (step_results (log r))
  /\ length (actions r) = length (step_results (log r))
  /\ length (times r) = length (step_results (log r))
  /\ rewards r = reward <$> step_results (log r).

(** With [random_play_p = 0] every action is the policy's and the
    sampler is never called. *)
Definition follows_policy (r : Replay World) : Prop :=
  actions r = policy <$> states r /\ sampled (log r) = [].

(** With [random_play_p = 1] the actions are the sampler's answers. *)
Definition all_sampled (r : Replay World) : Prop :=
  actions r = sampled (log r).

(** The rewards of a rollout that takes [policy[state]] at every step
    and ends with the first terminated or truncated step, or after [n]
    steps. *)
Fixpoint rollout_rewards (n : nat) (w : World) (state : nat) : list Q :=
  match n with
  | O => []
  | S n' =>
      let '(res, w') := step (policy state) w in
      reward res ::
        (if stops res then [] else rollout_rewards n' w' (next_state res))
  end.

End Create.
Arguments item_of {World} r.
Arguments all_sampled {World} r.
Arguments aligned {World} r.

(** The sum of a list, accumulated from 0 in the order of the list. *)
Definition sum_list_Q (qs : list Q) : Q := fold_left Qplus qs 0%Q.

(** No step of [rs] ended the episode / none but the last one did. *)
Definition running (rs : list StepResult) : Prop :=
  Forall (fun res => stops res = false) rs.

Definition stops_only_last (rs : list StepResult) : Prop :=
  forall j res, (S j < length rs)%nat -> rs !! j = Some res -> stops res = false.

(** The shape of a recorded episode, given the calls made while it was
    recorded: four lists of one length [n <= max_step], one entry per
    call of [step], timestamps [0 .. n-1]; a terminated step is the
    last one; and an episode shorter than [max_step] ends with a
    terminated or truncated step. *)
Definition episode_shape (max_step : nat) (item : Item) (calls : list Call) : Prop :=
  let n := length (item_states item) in
  length (item_actions item) = n
  /\ length (item_rewards item) = n
  /\ length (item_times item) = n
  /\ (n <= max_step)%nat
  /\ item_times item = seq 0 n
  /\ item_rewards item = reward <$> step_results calls
  /\ (forall j res, step_results calls !! j = Some res ->
        terminated res = true -> n = S j)
  /\ ((n < max_step)%nat ->
      exists res, last (step_results calls) = Some res /\ stops res = true).

(** The timestep of the last recorded step of an episode. *)
Definition last_index (item : Item) : nat := (length (item_states item) - 1)%nat.

Definition is_minimum (m : nat) (xs : list nat) : Prop :=
  m ∈ xs /\ forall x, x ∈ xs -> (m <= x)%nat.

Definition is_maximum (m : nat) (xs : list nat) : Prop :=
  m ∈ xs /\ forall x, x ∈ xs -> (x <= m)%nat.

(** What the outer loop has established after [k] replays. *)
Definition counted {World} (max_step : nat) (k : nat) (rc : Recorder World) : Prop :=
  length (rec_data rc) = k
  /\ Forall (fun item => last (item_times item) = Some (last_index item))
            (rec_data rc)
  /\ (k = 0%nat -> rec_min_step rc = max_step /\ rec_max_step rc = 0%nat)
  /\ ((0 < k)%nat ->
      is_minimum (rec_min_step rc) (last_index <$> rec_data rc)
      /\ is_maximum (rec_max_step rc) (last_index <$> rec_data rc)).

(** *** A worked instance: a corridor of three steps

    The world is the position in the corridor and the number of draws
    made so far.  Every step moves one position on and pays 1; position
    3 is terminal.  The generator alternates between 0 and 3/4, the
    sampler always answers 1, the policy always answers 0. *)

Definition corridor_reset (seed : Z) (w : nat * nat) : nat * (nat * nat) :=
  (0%nat, (0%nat, snd w)).

Definition corridor_step (action : nat) (w : nat * nat) : StepResult * (nat * nat) :=
  ({| next_state := S (fst w); reward := 1%Q;
      terminated := (3 <=? S (fst w))%nat; truncated := false |},
   (S (fst w), snd w)).

Definition corridor_state (w : nat * nat) : nat := fst w.

Definition corridor_random (w : nat * nat) : Q * (nat * nat) :=
  (if Nat.even (snd w) then 0%Q else (3 # 4)%Q, (fst w, S (snd w))).

Definition corridor_sample (w : nat * nat) : nat * (nat * nat) := (1%nat, w).

Definition corridor_policy (s : nat) : nat := 0%nat.

Definition corridor_create (n_replay max_step : nat) (random_play_p : Q)
  : option Output :=
  create (nat * nat) corridor_reset corridor_step corridor_state
         corridor_random corridor_sample corridor_policy
         4 2 2 (1 # 10) n_replay max_step random_play_p 42 (0%nat, 0%nat).


(** *** Further notions: what the calls of a rollout show *)

(** The draws of the generator, the players and the actions of the
    steps in a list of calls. *)
Definition draws (calls : list Call) : list Q :=
  omap (fun c => match c with CallRandom u => Some u | _ => None end) calls.

Definition players (calls : list Call) : list Player :=
  omap (fun c => match c with CallStep (Some player) _ _ => Some player | _ => None end)
       calls.

Definition step_actions (calls : list Call) : list nat :=
  omap (fun c => match c with CallStep _ action _ => Some action | _ => None end) calls.

Definition is_random (player : Player) : bool :=
  match player with
  | RandomPlayer => true
  | PolicyPlayer => false
  end.

(** The states a rollout is in before each of its steps: the start
    state, then the state each step but the last returned. *)
Definition visited (start : nat) (rs : list StepResult) : list nat :=
  take (length rs) (start :: (next_state <$> rs)).

(** The steps of the expert rollout as calls. *)
Definition expert_steps (steps : list (nat * StepResult)) : list Call :=
  (fun '(action, res) => CallStep None action res) <$> steps.

(** What a replay shows of the way its actions were chosen: one draw
    per step; the step is the sampler's exactly when the draw is below
    [random_play_p]; a step of the policy records [policy[state]]; and
    the sampler's answers are the actions of its steps. *)
Definition chosen (policy : nat -> nat) (random_play_p : Q)
    (states actions : list nat) (calls : list Call) : Prop :=
  actions = step_actions calls
  /\ length (players calls) = length actions
  /\ length states = length actions
  /\ Forall2 (fun u player => player = RandomPlayer <-> (u < random_play_p)%Q)
             (draws calls) (players calls)
  /\ Forall2 (fun state '(player, action) =>
                player = PolicyPlayer -> action = policy state)
             states (zip (players calls) actions)
  /\ sampled calls
     = (List.filter (fun x => is_random (fst x)) (zip (players calls) actions)).*2.

(** The recorded arrays against the calls: the actions and rewards are
    those of the steps, and the states are the visited ones from some
    start state on. *)
Definition traced (item : Item) (calls : list Call) : Prop :=
  item_actions item = step_actions calls
  /\ item_rewards item = reward <$> step_results calls
  /\ exists start, item_states item = visited start (step_results calls).

End Data.

(** ** [random_mdp_factory.py]: [MDPFactory.play] *)

Module Play.
Import Data.

(** The variables of [play]. *)
Record Playing (World : Type) := {
  play_world : World;
  observation : nat;
  play_log : list Call
}.
Arguments play_world {World}.
Arguments observation {World}.
Arguments play_log {World}.

Section Play.
Variable World : Type.
(** [self.model.reset(seed=42)] and [self.model.step(action)];
    observations are states of a [Discrete] space, hence naturals. *)
Variable reset : Z -> World -> nat * World.
Variable step : nat -> World -> StepResult * World.
(** [self.policy._policy] *)
Variable policy : list nat.

(** [for _ in range(n_steps)], [n] rounds to go; [None] is the
    IndexError of [self.policy._policy[observation]]. *)
Fixpoint play_loop (n : nat) (st : Playing World) : option (Playing World) :=
  match n with
  | O => Some st
  | S n' =>
      action ← policy !! observation st;
      let '(res, w) := step action (play_world st) in
      let st' := {| play_world := w;
                    observation := next_state res;
                    play_log := play_log st ++ [CallStep None action res] |} in
      if stops res then Some st' else play_loop n' st'
  end.

(** [play]; what it prints is the list of calls. *)
Definition play (n_steps : nat) (w0 : World) : option (Playing World) :=
  let '(observation, w) := reset 42 w0 in
  play_loop n_steps
    {| play_world := w; observation := observation;
       play_log := [CallReset 42 observation] |}.

End Play.

(** The policy array read as a function of the state (0 where the
    array has no entry). *)
Definition policy_at (policy : list nat) (s : nat) : nat := default 0%nat (policy !! s).

(** A model for the examples: a ring of four states that never stops. *)
Definition loop_step (action : nat) (w : nat * nat) : StepResult * (nat * nat) :=
  ({| next_state := S (fst w) mod 4; reward := 1%Q;
      terminated := false; truncated := false |},
   (S (fst w) mod 4, snd w)).

End Play.

(** * Part II: proofs *)

(** ** Facts about loops *)

Lemma for_each_app {X St} (xs ys : list X) (body : X -> St -> option St) st :
  for_each (xs ++ ys) body st = st' ← for_each xs body st; for_each ys body st'.
Proof.
  revert st. induction xs as [|x xs IH]; intros st; simpl; [done|].
  destruct (body x st) as [st'|]; simpl; [apply IH|done].
Qed.

(** A loop whose body keeps an invariant and never raises under it
    does not raise and ends in the invariant. *)
Lemma for_each_invariant {X St} (Inv : St -> Prop) (xs : list X)
    (body : X -> St -> option St) (st : St) :
  (forall x st, x ∈ xs -> Inv st -> exists st', body x st = Some st' /\ Inv st') ->
  Inv st ->
  exists st', for_each xs body st = Some st' /\ Inv st'.
Proof.
  revert st. induction xs as [|x xs IH]; intros st Hbody Hst; simpl.
  - by exists st.
  - destruct (Hbody x st) as (st1 & -> & Hst1); [left|done|]. simpl.
    apply IH; [|done]. intros y st2 Hy. apply Hbody. by right.
Qed.

Lemma range_S n : range (S n) = range n ++ [n].
Proof. unfold range. by rewrite seq_S. Qed.

(** [for i in range(n)] with an invariant that counts the rounds: the
    loop does not raise when no round does. *)
Lemma for_each_range_total {St} (Inv : nat -> St -> Prop) (n : nat)
    (body : nat -> St -> option St) (st : St) :
  Inv 0%nat st ->
  (forall i st, (i < n)%nat -> Inv i st ->
     exists st', body i st = Some st' /\ Inv (S i) st') ->
  exists st', for_each (range n) body st = Some st' /\ Inv n st'.
Proof.
  intros H0 Hbody. induction n as [|n IH].
  - by exists st.
  - destruct IH as (st1 & Hrun & Hst1).
    { intros i st1 Hi. apply Hbody. lia. }
    destruct (Hbody n st1) as (st2 & Hstep & Hst2); [lia|done|].
    exists st2. split; [|done].
    rewrite range_S, for_each_app, Hrun. simpl. by rewrite Hstep.
Qed.

(** The same for a loop that is known to have ended normally. *)
Lemma for_each_range_partial {St} (Inv : nat -> St -> Prop) (n : nat)
    (body : nat -> St -> option St) (st st' : St) :
  for_each (range n) body st = Some st' ->
  Inv 0%nat st ->
  (forall i st st', (i < n)%nat -> Inv i st -> body i st = Some st' ->
     Inv (S i) st') ->
  Inv n st'.
Proof.
  revert st'. induction n as [|n IH]; intros st' Hrun H0 Hbody.
  - by injection Hrun as <-.
  - rewrite range_S, for_each_app in Hrun.
    destruct (for_each (range n) body st) as [st1|] eqn:Hrun1; [|done].
    simpl in Hrun.
    destruct (body n st1) as [st2|] eqn:Hstep; [|done].
    simpl in Hrun. injection Hrun as <-.
    apply (Hbody n st1); [lia| |done].
    apply IH; [done|done|]. intros i st3 st4 Hi. apply Hbody. lia.
Qed.

(** ** Facts about [random_mdp_factory.py] *)

Module FactoryFacts.
Import Numpy Factory.

Lemma arange_from_length start step n :
  length (arange_from start step n) = n.
Proof. revert start. induction n as [|n IH]; intros start; simpl; auto. Qed.

Lemma arange_from_lookup start step n i :
  (i < n)%nat ->
  arange_from start step n !! i = Some (start + Z.of_nat i * step)%Z.
Proof.
  revert start i. induction n as [|n IH]; intros start i Hi; [lia|].
  destruct i as [|i]; simpl.
  - f_equal. lia.
  - rewrite IH by lia. f_equal. lia.
Qed.

Lemma arange_from_elem start n z :
  z ∈ arange_from start 1 n <-> (start <= z < start + Z.of_nat n)%Z.
Proof.
  revert start. induction n as [|n IH]; intros start; simpl.
  - rewrite elem_of_nil. lia.
  - rewrite elem_of_cons, IH. lia.
Qed.

Lemma arange_from_sorted start n :
  StronglySorted Z.lt (arange_from start 1 n).
Proof.
  revert start. induction n as [|n IH]; intros start; simpl; constructor.
  - apply IH.
  - apply Forall_forall. intros z Hz. apply arange_from_elem in Hz. lia.
Qed.

Lemma all_rewards_unfold n_rewards :
  (0 <= n_rewards)%Z ->
  all_rewards n_rewards = arange_from (- n_rewards + 2) 1 (Z.to_nat n_rewards).
Proof.
  intros Hn. unfold all_rewards, arange. do 2 f_equal.
  rewrite Z.div_1_r. lia.
Qed.

(** C7.  For [n_rewards >= 2] the reward values are exactly the integers
    [-n_rewards + 2, ..., 1], in increasing order: there are [n_rewards]
    of them, the [i]-th one is [-n_rewards + 2 + i], the last one is [1],
    an integer is listed iff it lies in that range, and the list is
    strictly increasing. *)
Theorem all_rewards_range (n_rewards : Z) :
  (2 <= n_rewards)%Z ->
  length (all_rewards n_rewards) = Z.to_nat n_rewards
  /\ (forall i, (i < Z.to_nat n_rewards)%nat ->
        all_rewards n_rewards !! i = Some (- n_rewards + 2 + Z.of_nat i)%Z)
  /\ last (all_rewards n_rewards) = Some 1%Z
  /\ (forall z, z ∈ all_rewards n_rewards <-> (- n_rewards + 2 <= z <= 1)%Z)
  /\ StronglySorted Z.lt (all_rewards n_rewards).
Proof.
  intros Hn. rewrite all_rewards_unfold by lia.
  split; [apply arange_from_length|].
  split; [intros i Hi; rewrite arange_from_lookup by lia; f_equal; lia|].
  split.
  - rewrite last_lookup, arange_from_length.
    rewrite arange_from_lookup by lia. f_equal. lia.
  - split; [|apply arange_from_sorted].
    intros z. rewrite arange_from_elem. lia.
Qed.

Lemma all_rewards_range_witness :
  (2 <= 3)%Z /\ all_rewards 3 = [-1; 0; 1]%Z
  /\ length (all_rewards 3) = Z.to_nat 3.
Proof.
  split; [lia|]. split; [reflexivity|].
  apply (all_rewards_range 3). lia.
Defined.

(** C8.  For the kinds [S_DETERMINISTIC] and [S_PROBABILISTIC] the value
    of [transition_function] does not depend on the action argument. *)
Theorem transition_function_ignores_action {A} (transitions : ndarray A)
    (s a a' : nat) (next_s : option nat) :
  transition_function S_DETERMINISTIC transitions s a next_s
    = transition_function S_DETERMINISTIC transitions s a' next_s
  /\ transition_function S_PROBABILISTIC transitions s a next_s
    = transition_function S_PROBABILISTIC transitions s a' next_s.
Proof. split; reflexivity. Qed.

(** The action does matter for the [SA_*] kinds: C8 is not vacuous. *)
Example transition_function_SA_uses_action :
  transition_function SA_DETERMINISTIC
    (Array [Array [Scalar 0%nat; Scalar 1%nat]]) 0 0 None
  <> transition_function SA_DETERMINISTIC
    (Array [Array [Scalar 0%nat; Scalar 1%nat]]) 0 1 None.
Proof. discriminate. Qed.

(** What [reward_function] computes for the kind [SAS]: the table is
    read at [(s, a, s)], whatever [next_s] is. *)
Lemma reward_function_SAS_reads_s {A} (rewards : ndarray A) n_rewards
    (s a next_s : nat) (r : option Z) :
  reward_function MDPRewardType.SAS rewards n_rewards s a next_s r
    = getitem rewards [s; a; s].
Proof. reflexivity. Qed.

(** C4 fails on the code.  With [s = 0], [a = 0], [next_s = 1] the
    table entry at [(s, a, next_s)] is [1], but [reward_function]
    returns the entry at [(s, a, s)], which is [0]. *)
Theorem reward_function_SAS_wrong_entry :
  getitem sas_table [0; 0; 1]%nat = Some (Scalar 1%Z)
  /\ reward_function MDPRewardType.SAS sas_table 2 0 0 1 None
     = Some (Scalar 0%Z)
  /\ reward_function MDPRewardType.SAS sas_table 2 0 0 1 None
     <> getitem sas_table [0; 0; 1]%nat.
Proof. repeat split; discriminate. Qed.

(** The sibling branch [SASR] does index the table with [next_s]. *)
Lemma reward_function_SASR_reads_next_s {A} (rewards : ndarray A) n_rewards
    (s a next_s : nat) (r : Z) (i : nat) :
  Py.index r (all_rewards n_rewards) = Some i ->
  reward_function MDPRewardType.SASR rewards n_rewards s a next_s (Some r)
    = getitem rewards [s; a; next_s; i].
Proof. intros Hi. simpl. rewrite Hi. reflexivity. Qed.

(** *** The dictionaries, the reward index and the bounds *)

Lemma zip_seq_fst {B} (start : nat) (rows : list B) :
  (zip (seq start (length rows)) rows).*1 = seq start (length rows).
Proof. apply fst_zip. by rewrite length_seq. Qed.

Lemma zip_seq_snd {B} (start : nat) (rows : list B) :
  (zip (seq start (length rows)) rows).*2 = rows.
Proof. apply snd_zip. by rewrite length_seq. Qed.

(** X9.  For the two probabilistic kinds that return a dictionary, the
    dictionary built from a row of the table has the keys
    [0, 1, ..., len(row) - 1], in this order and once each, and under
    them the entries of the row. *)
Theorem transition_function_dict {A} (kind : MDPTransitionType)
    (transitions : ndarray A) (s a : nat) (next_s : option nat)
    (idx : list nat) (rows : list (ndarray A)) :
  (kind = S_PROBABILISTIC /\ idx = [s])
  \/ (kind = SA_PROBABILISTIC /\ idx = [s; a]) ->
  getitem transitions idx = Some (Array rows) ->
  exists items,
    transition_function kind transitions s a next_s = Some (Dict items)
    /\ items.*1 = seq 0 (length rows)
    /\ items.*2 = rows
    /\ NoDup items.*1.
Proof.
  intros Hkind Hrow.
  exists (zip (seq 0 (length rows)) rows).
  split; [|split; [apply zip_seq_fst|split; [apply zip_seq_snd|]]].
  - destruct Hkind as [[-> ->]|[-> ->]];
      unfold transition_function; rewrite Hrow; reflexivity.
  - rewrite zip_seq_fst. apply NoDup_seq.
Qed.

Lemma transition_function_dict_witness :
  exists items,
    transition_function S_PROBABILISTIC
      (Array [Array [Scalar (1 # 4)%Q; Scalar (3 # 4)%Q]]) 0 7 None
    = Some (Dict items)
    /\ items.*1 = [0; 1]%nat
    /\ items.*2 = [Scalar (1 # 4)%Q; Scalar (3 # 4)%Q].
Proof.
  destruct (transition_function_dict S_PROBABILISTIC
              (Array [Array [Scalar (1 # 4)%Q; Scalar (3 # 4)%Q]]) 0 7 None
              [0%nat] [Scalar (1 # 4)%Q; Scalar (3 # 4)%Q])
    as (items & Hitems & Hkeys & Hvals & _); [left; split; reflexivity|reflexivity|].
  exists items. split; [exact Hitems|]. split; [exact Hkeys|exact Hvals].
Defined.

Lemma all_rewards_arange_from n_rewards :
  all_rewards n_rewards = arange_from (- n_rewards + 2) 1 (Z.to_nat n_rewards).
Proof.
  unfold all_rewards, arange. do 2 f_equal. rewrite Z.div_1_r. lia.
Qed.

Lemma index_arange_from (r start : Z) (k : nat) :
  Py.index r (arange_from start 1 k)
  = if decide (start <= r < start + Z.of_nat k)%Z
    then Some (Z.to_nat (r - start)) else None.
Proof.
  revert start. induction k as [|k IH]; intros start; simpl.
  - destruct (decide _); [lia|done].
  - destruct (Z.eqb_spec start r) as [->|Hne].
    + destruct (decide _); [|lia]. f_equal. lia.
    + rewrite IH.
      destruct (decide (start + 1 <= r < start + 1 + Z.of_nat k)%Z);
        destruct (decide (start <= r < start + Z.of_nat (S k))%Z);
        try lia; [|done].
      simpl. f_equal. lia.
Qed.

(** X10.  For the reward kind [SASR], a reward value [r] of the value
    set [-n_rewards + 2 .. 1] selects the last index [r + n_rewards - 2]
    of the table, the position of [r] in [all_rewards]; any other [r],
    [None] included, raises. *)
Theorem reward_function_SASR_index {A} (rewards : ndarray A) (n_rewards : Z)
    (s a next_s : nat) (r : option Z) :
  reward_function MDPRewardType.SASR rewards n_rewards s a next_s r
  = match r with
    | Some r =>
        if decide (- n_rewards + 2 <= r <= 1)%Z
        then getitem rewards [s; a; next_s; Z.to_nat (r + n_rewards - 2)]
        else None
    | None => None
    end.
Proof.
  unfold reward_function. destruct r as [r|]; [|done]. simpl.
  rewrite all_rewards_arange_from, index_arange_from.
  destruct (decide (- n_rewards + 2 <= r < - n_rewards + 2 + Z.of_nat (Z.to_nat n_rewards))%Z);
    destruct (decide (- n_rewards + 2 <= r <= 1)%Z); try lia; [|done].
  simpl.
  by replace (r - (- n_rewards + 2))%Z with (r + n_rewards - 2)%Z by lia.
Qed.

Lemma getitem_cons {A} (arr : ndarray A) (i : nat) (idx : list nat) :
  getitem arr (i :: idx) = sub ← getitem arr [i]; getitem sub idx.
Proof.
  destruct arr as [x|rows]; simpl; [done|].
  by destruct (rows !! i).
Qed.

(** X11.  A state index outside the first axis of a table makes both
    closures raise, for every kind and whatever the other arguments. *)
Theorem out_of_range_state_raises {A} (transitions rewards : ndarray A)
    (s : nat) :
  getitem transitions [s] = None ->
  getitem rewards [s] = None ->
  (forall kind a next_s, transition_function kind transitions s a next_s = None)
  /\ (forall kind n_rewards a next_s r,
        reward_function kind rewards n_rewards s a next_s r = None).
Proof.
  intros Htr Hrw. split.
  - intros kind a next_s. unfold transition_function.
    destruct kind; rewrite ?Htr; try done.
    + by rewrite getitem_cons, Htr.
    + by rewrite getitem_cons, Htr.
    + destruct next_s; by rewrite getitem_cons, Htr.
  - intros kind n_rewards a next_s r. unfold reward_function.
    destruct kind; rewrite ?Hrw; try done.
    + by rewrite getitem_cons, Hrw.
    + by rewrite getitem_cons, Hrw.
    + destruct r as [r|]; [|done]. cbn -[getitem].
      destruct (Py.index r (all_rewards n_rewards)); [|done]. cbn -[getitem].
      by rewrite getitem_cons, Hrw.
Qed.

Lemma out_of_range_state_raises_witness :
  getitem sas_table [2%nat] = None
  /\ transition_function SAS sas_table 2 0 (Some 0%nat) = None
  /\ reward_function MDPRewardType.SA sas_table 2 2 0 0 None = None.
Proof.
  split; [reflexivity|].
  destruct (out_of_range_state_raises sas_table sas_table 2 eq_refl eq_refl)
    as [Htr Hrw].
  split; [apply Htr|apply Hrw].
Defined.

End FactoryFacts.

(** ** Facts about [policies.py] *)

Module PoliciesFacts.
Import Policies.

#[local] Arguments Qabs : simpl never.
#[local] Arguments Qplus : simpl never.
#[local] Arguments Qminus : simpl never.
#[local] Arguments Qmult : simpl never.
#[local] Arguments Qopp : simpl never.

(** *** Facts about [_update_value] *)

(** A loop that adds one term per element accumulates the terms, in
    order, on top of its initial value. *)
Lemma for_each_sum {X} (xs : list X) (body : X -> Q -> option Q) (g : X -> Q) v0 :
  (forall x v, x ∈ xs -> body x v = Some (v + g x)%Q) ->
  for_each xs body v0 = Some (fold_left (fun acc x => acc + g x)%Q xs v0).
Proof.
  revert v0. induction xs as [|x xs IH]; intros v0 Hbody; simpl; [done|].
  rewrite Hbody by left. simpl. apply IH.
  intros y v Hy. apply Hbody. by right.
Qed.

Lemma V_lookup (values : list Q) s' v : values !! s' = Some v -> V values s' = v.
Proof. unfold V. by intros ->. Qed.

Lemma get_value_expected_return m gamma values s a s' :
  (s' < length values)%nat ->
  get_value m gamma values s a s' = Some (expected_return m gamma values s a s').
Proof.
  intros Hs'. destruct (lookup_lt_is_Some_2 values s' Hs') as [v Hv].
  unfold get_value, expected_return, scalar_reward, sumQ.
  rewrite (V_lookup _ _ _ Hv).
  destruct (reward_function_type (config m)); simpl; rewrite ?Hv; simpl; try done.
  apply (for_each_sum (all_rewards m) _
           (fun r => P_reward m s a s' r * (inject_Z r + gamma * v))%Q).
  intros r v0 _. done.
Qed.

Lemma update_value_Q_value (m : MDP) (g : Q) (vs : list Q) (s a : nat) :
  value_ok m (length vs) s a = true ->
  update_value m g vs s a = Some (Q_value m g vs s a).
Proof.
  unfold update_value, Q_value, value_ok, sumQ.
  intros Hok.
  destruct (transition_function_type (config m)).
  - (* S_DETERMINISTIC *)
    destruct (transition_function m s a None) as [s'| |]; try done.
    apply Nat.ltb_lt in Hok. simpl. by apply get_value_expected_return.
  - (* S_PROBABILISTIC *)
    destruct (transition_function m s a None) as [|d|]; try done. simpl.
    rewrite forallb_forall in Hok.
    apply (for_each_sum d _ (fun '(s', p) => p * expected_return m g vs s a s')%Q).
    intros [s' p] v Hin.
    rewrite get_value_expected_return; [done|].
    apply Nat.ltb_lt. apply (Hok (s', p)). by apply list_elem_of_In.
  - (* SA_DETERMINISTIC *)
    destruct (transition_function m s a None) as [s'| |]; try done.
    apply Nat.ltb_lt in Hok. simpl. by apply get_value_expected_return.
  - (* SA_PROBABILISTIC *)
    destruct (transition_function m s a None) as [|d|]; try done. simpl.
    rewrite forallb_forall in Hok.
    apply (for_each_sum d _ (fun '(s', p) => p * expected_return m g vs s a s')%Q).
    intros [s' p] v Hin.
    rewrite get_value_expected_return; [done|].
    apply Nat.ltb_lt. apply (Hok (s', p)). by apply list_elem_of_In.
  - (* SAS *)
    apply andb_true_iff in Hok as [Hshape Hlen].
    rewrite forallb_forall in Hshape. apply Nat.leb_le in Hlen.
    apply (for_each_sum (range (n_states (config m))) _
             (fun s' =>
                default 0%Q (as_number (transition_function m s a (Some s')))
                * expected_return m g vs s a s')%Q).
    intros s' v Hin.
    rewrite get_value_expected_return
      by (apply list_elem_of_In, in_seq in Hin; lia).
    specialize (Hshape s'). rewrite <- list_elem_of_In in Hshape.
    specialize (Hshape Hin).
    destruct (transition_function m s a (Some s')); done.
Qed.

(** The accumulated sum is the sum in the usual sense: the first term
    plus the sum of the others. *)
Lemma fold_left_sum_shift {X} (f : X -> Q) (xs : list X) (v0 : Q) :
  (fold_left (fun acc x => acc + f x) xs v0 == v0 + sumQ f xs)%Q.
Proof.
  unfold sumQ. revert v0. induction xs as [|x xs IH]; intros v0; simpl; [lra|].
  rewrite (IH (v0 + f x)%Q), (IH (0 + f x)%Q). lra.
Qed.

Lemma sumQ_cons {X} (f : X -> Q) (x : X) (xs : list X) :
  (sumQ f (x :: xs) == f x + sumQ f xs)%Q.
Proof. unfold sumQ at 1. simpl. rewrite fold_left_sum_shift. lra. Qed.

(** The two degenerate forms are the general double sum taken with a
    point mass: on the successor for a deterministic kind, on the
    scalar reward for a reward kind other than [SASR]. *)

Lemma sumQ_indicator {X} `{EqDecision X} (f : X -> Q) (x0 : X) (xs : list X) :
  NoDup xs ->
  (sumQ (fun x => (if decide (x = x0) then 1 else 0) * f x) xs
   == if decide (x0 ∈ xs) then f x0 else 0)%Q.
Proof.
  induction 1 as [|x xs Hx Hnd IH].
  - destruct (decide (x0 ∈ [])) as [Hin|_]; [by apply elem_of_nil in Hin|].
    reflexivity.
  - rewrite sumQ_cons, IH. destruct (decide (x = x0)) as [->|Hne].
    + destruct (decide (x0 ∈ xs)); [done|].
      destruct (decide (x0 ∈ x0 :: xs)) as [_|Hn]; [lra|].
      exfalso. apply Hn. left.
    + destruct (decide (x0 ∈ xs)) as [Hin|Hnin].
      * destruct (decide (x0 ∈ x :: xs)) as [_|Hn]; [lra|].
        exfalso. apply Hn. by right.
      * destruct (decide (x0 ∈ x :: xs)) as [[?|?]%elem_of_cons|_];
          [congruence|done|lra].
Qed.

Lemma Q_value_deterministic_point_mass m g vs s a t :
  transition_function_type (config m) = S_DETERMINISTIC
  \/ transition_function_type (config m) = SA_DETERMINISTIC ->
  transition_function m s a None = NextState t ->
  (t < n_states (config m))%nat ->
  (Q_value m g vs s a
   == sumQ (fun s' => (if decide (s' = t) then 1 else 0)
                      * expected_return m g vs s a s')
           (range (n_states (config m))))%Q.
Proof.
  intros Hkind Ht Hlt. rewrite sumQ_indicator by apply NoDup_seq.
  destruct (decide (t ∈ range (n_states (config m)))) as [_|Hn].
  - unfold Q_value. destruct Hkind as [-> | ->]; by rewrite Ht.
  - exfalso. apply Hn. apply list_elem_of_In, in_seq. lia.
Qed.

Lemma expected_return_scalar_point_mass m g vs s a s' r0 :
  reward_function_type (config m) <> MDPRewardType.SASR ->
  NoDup (all_rewards m) ->
  r0 ∈ all_rewards m ->
  scalar_reward m s a s' = inject_Z r0 ->
  (expected_return m g vs s a s'
   == sumQ (fun r => (if decide (r = r0) then 1 else 0)
                     * (inject_Z r + g * V vs s'))
           (all_rewards m))%Q.
Proof.
  intros Hkind Hnd Hin Hr. rewrite sumQ_indicator by done.
  destruct (decide (r0 ∈ all_rewards m)); [|done].
  unfold expected_return. rewrite Hr.
  destruct (reward_function_type (config m)); done.
Qed.

(** C3.  Whenever the model's transition value for [(s, a)] has the
    shape of its kind and names states of the value table,
    [_update_value(s, a)] returns
    [Σ_{s'} P(s'|s,a) * Σ_r P(r|s,a,s') * (r + γ·V(s'))],
    where the outer sum is the successor's term alone for the
    deterministic kinds and the inner sum is [r + γ·V(s')] for the
    reward kinds other than [SASR]; both sums add their terms in the
    order of the loop, starting from 0. *)
Theorem update_value_computes_Q (self : DeterministicMDPPolicy) (s a : nat) :
  value_ok (model self) (length (_values self)) s a = true ->
  _update_value self s a
  = Some (Q_value (model self) (gamma self) (_values self) s a).
Proof. apply update_value_Q_value. Qed.

(** *** Facts about [np.max] and [np.argmax] *)

Lemma running_max_spec (xs : list Q) (m0 : Q) :
  let m := fold_left Numpy.keep_larger xs m0 in
  (m = m0 \/ m ∈ xs) /\ (m0 <= m)%Q /\ (forall x, x ∈ xs -> (x <= m)%Q).
Proof.
  revert m0. induction xs as [|y xs IH]; intros m0; simpl.
  - split; [by left|]. split; [lra|]. intros x Hx. by apply elem_of_nil in Hx.
  - destruct (IH (Numpy.keep_larger m0 y)) as (Hin & Hle & Hall).
    assert (m0 <= Numpy.keep_larger m0 y /\ y <= Numpy.keep_larger m0 y)%Q as [Hm0 Hy].
    { unfold Numpy.keep_larger. destruct (Qlt_le_dec m0 y); lra. }
    split; [|split].
    + destruct Hin as [->|Hin]; [|right; by right].
      unfold Numpy.keep_larger. destruct (Qlt_le_dec m0 y); [right; left|by left].
    + lra.
    + intros x [->|Hx]%elem_of_cons; [lra|by apply Hall].
Qed.

(** [np.max] returns an element of the array that bounds all of them. *)
Lemma np_max_spec (xs : list Q) (m : Q) :
  Numpy.max xs = Some m ->
  m ∈ xs /\ (forall x, x ∈ xs -> (x <= m)%Q).
Proof.
  destruct xs as [|x xs]; simpl; [done|]. intros [= <-].
  destruct (running_max_spec xs x) as (Hin & Hle & Hall).
  split.
  - destruct Hin as [->|Hin]; [left|by right].
  - intros y [->|Hy]%elem_of_cons; [done|by apply Hall].
Qed.

Lemma argmax_from_spec (xs pre : list Q) (best : nat) (m : Q) :
  pre !! best = Some m ->
  (forall x, x ∈ pre -> (x <= m)%Q) ->
  (forall j y, (j < best)%nat -> pre !! j = Some y -> (y < m)%Q) ->
  let i := Numpy.argmax_from xs (length pre) best m in
  let mx := fold_left Numpy.keep_larger xs m in
  (pre ++ xs) !! i = Some mx
  /\ (forall j y, (j < i)%nat -> (pre ++ xs) !! j = Some y -> (y < mx)%Q).
Proof.
  revert pre best m. induction xs as [|y xs IH]; intros pre best m Hbest Hle Hlt.
  - simpl. rewrite app_nil_r. split; [done|]. intros j z Hj Hz. by eapply Hlt.
  - simpl. unfold Numpy.keep_larger at 2 4.
    replace (pre ++ y :: xs) with ((pre ++ [y]) ++ xs) by by rewrite <- app_assoc.
    replace (Datatypes.S (length pre)) with (length (pre ++ [y]))
      by (rewrite length_app; simpl; lia).
    destruct (Qlt_le_dec m y) as [Hmy|Hym].
    + apply IH.
      * rewrite lookup_app_r by lia. by rewrite Nat.sub_diag.
      * intros x [Hx|Hx]%elem_of_app; [specialize (Hle x Hx); lra|].
        apply list_elem_of_singleton in Hx as ->. lra.
      * intros j z Hj Hz. rewrite lookup_app_l in Hz by done.
        assert (z <= m)%Q; [|lra].
        apply Hle. by eapply list_elem_of_lookup_2.
    + apply IH.
      * apply lookup_app_l_Some. done.
      * intros x [Hx|Hx]%elem_of_app; [by apply Hle|].
        apply list_elem_of_singleton in Hx as ->. done.
      * intros j z Hj Hz. apply (Hlt j z Hj).
        apply lookup_lt_Some in Hbest.
        rewrite lookup_app_l in Hz by lia. done.
Qed.

(** [np.argmax] returns the first position of the value of [np.max]. *)
Lemma np_argmax_spec (xs : list Q) (i : nat) :
  Numpy.argmax xs = Some i ->
  exists m, Numpy.max xs = Some m
            /\ xs !! i = Some m
            /\ (forall j y, (j < i)%nat -> xs !! j = Some y -> (y < m)%Q).
Proof.
  destruct xs as [|x xs]; simpl; [done|]. intros [= <-].
  exists (fold_left Numpy.keep_larger xs x). split; [done|].
  apply (argmax_from_spec xs [x] 0 x).
  - done.
  - intros y Hy. apply list_elem_of_singleton in Hy as ->. lra.
  - intros j y Hj. lia.
Qed.

Lemma np_max_is_Some (xs : list Q) : xs <> [] -> is_Some (Numpy.max xs).
Proof. destruct xs; [done|]. simpl. eauto. Qed.

Lemma np_argmax_is_Some (xs : list Q) : xs <> [] -> is_Some (Numpy.argmax xs).
Proof. destruct xs; [done|]. simpl. eauto. Qed.

Lemma np_argmax_lt (xs : list Q) (i : nat) :
  Numpy.argmax xs = Some i -> (i < length xs)%nat.
Proof.
  intros (m & _ & Hi & _)%np_argmax_spec. by eapply lookup_lt_Some.
Qed.

(** *** Value iteration: what one sweep does *)

Lemma action_values_Q_row self s :
  action_values self s = Q_row (model self) (gamma self) (_values self) s.
Proof. reflexivity. Qed.

Lemma Q_row_lookup m gamma values s qs :
  Q_row m gamma values s = Some qs ->
  length qs = n_actions (config m)
  /\ forall a q, qs !! a = Some q -> update_value m gamma values s a = Some q.
Proof.
  unfold Q_row, range. intros Hrow. split.
  - apply length_mapM in Hrow. by rewrite length_seq in Hrow.
  - intros a q Hq. apply mapM_Some_1 in Hrow.
    destruct (Forall2_lookup_r _ _ _ _ _ Hrow Hq) as (a' & Ha' & Hupd).
    apply lookup_seq in Ha' as [-> _]. done.
Qed.

Lemma sweep_state_inv s self delta self' delta' :
  ValueIteration.sweep_state s (self, delta) = Some (self', delta') ->
  exists v qs mx am,
    _values self !! s = Some v
    /\ action_values self s = Some qs
    /\ Numpy.max qs = Some mx
    /\ Numpy.argmax qs = Some am
    /\ (s < length (_policy self))%nat
    /\ self' = set_policy (set_values self (<[s := mx]> (_values self)))
                          (<[s := am]> (_policy self))
    /\ delta' = Py.max2 delta (Qabs (v - mx)).
Proof.
  unfold ValueIteration.sweep_state, Py.setitem.
  destruct (_values self !! s) as [v|] eqn:Hv; simpl; [|done].
  destruct (action_values self s) as [qs|] eqn:Hqs; simpl; [|done].
  destruct (Numpy.max qs) as [mx|] eqn:Hmx; simpl; [|done].
  apply lookup_lt_Some in Hv as Hlt.
  destruct (decide (s < length (_values self))%nat); [simpl|lia].
  destruct (Numpy.argmax qs) as [am|] eqn:Ham; simpl; [|done].
  destruct (decide (s < length (_policy self))%nat); simpl; [|done].
  rewrite list_lookup_insert_eq by done. simpl.
  intros [= <- <-]. by exists v, qs, mx, am.
Qed.

Lemma sweep_upto_S k self :
  sweep_upto (S k) self
  = st ← sweep_upto k self; ValueIteration.sweep_state k st.
Proof.
  unfold sweep_upto, range. rewrite seq_S, for_each_app. simpl.
  destruct (for_each (seq 0 k) ValueIteration.sweep_state (self, 0%Q)); simpl; [|done].
  by destruct (ValueIteration.sweep_state k p).
Qed.

Lemma lookup_take_drop {A} (l l0 : list A) (k i : nat) :
  (k <= length l)%nat ->
  (take k l ++ drop k l0) !! i = if decide (i < k)%nat then l !! i else l0 !! i.
Proof.
  intros Hk. destruct (decide (i < k)%nat).
  - rewrite lookup_app_l by (rewrite length_take; lia).
    by rewrite lookup_take_lt.
  - rewrite lookup_app_r by (rewrite length_take; lia).
    rewrite length_take, lookup_drop. f_equal. lia.
Qed.

Lemma max2_spec (a b : Q) :
  (a <= Py.max2 a b)%Q /\ (b <= Py.max2 a b)%Q
  /\ (Py.max2 a b = a \/ Py.max2 a b = b).
Proof. unfold Py.max2. destruct (Qlt_le_dec a b); repeat split; auto; lra. Qed.

Lemma swept_0 self : swept 0 self self 0%Q.
Proof.
  split; try done; try lia; try lra.
  all: try (intros s Hs; lia).
  split; [intros s v v' Hs; lia|]. split; [done|lia].
Qed.

Lemma swept_S k self self_k delta_k self' delta' :
  swept k self self_k delta_k ->
  ValueIteration.sweep_state k (self_k, delta_k) = Some (self', delta') ->
  swept (S k) self self' delta'.
Proof.
  intros Hk Hstep.
  apply sweep_state_inv in Hstep
    as (v & qs & mx & am & Hv & Hqs & Hmx & Ham & Hpol & -> & ->).
  destruct Hk as [Hm Hg He HlenV HlenP Hbound Hrest Hdone Hdelta Hnonneg].
  apply lookup_lt_Some in Hv as HkV.
  destruct (max2_spec delta_k (Qabs (v - mx))) as (Hmax1 & Hmax2 & Hmax3).
  destruct (Hrest k (Nat.le_refl k)) as [Hvk _]. rewrite Hv in Hvk.
  rewrite action_values_Q_row, Hm, Hg in Hqs.
  split; simpl; try done.
  - by rewrite length_insert.
  - by rewrite length_insert.
  - lia.
  - intros s Hs. rewrite !list_lookup_insert_ne by lia. apply Hrest. lia.
  - intros s Hs. destruct (decide (s = k)) as [->|Hne].
    + unfold backed_up. simpl.
      assert (take k (<[k:=mx]> (_values self_k)) ++ drop k (_values self)
              = _values self_k) as ->.
      { rewrite take_insert_ge by lia. apply list_eq. intros i.
        rewrite lookup_take_drop by lia.
        destruct (decide (i < k)%nat); [done|]. symmetry. apply Hrest. lia. }
      destruct (Q_row_lookup _ _ _ _ _ Hqs) as [Hlen Hrow].
      destruct (np_argmax_spec _ _ Ham) as (m' & Hm' & Hamx & Hfirst).
      rewrite Hmx in Hm'. injection Hm' as <-.
      destruct (np_max_spec _ _ Hmx) as [_ Hle].
      exists mx, am. rewrite !list_lookup_insert_eq by lia.
      split; [done|]. split; [done|].
      split; [apply np_argmax_lt in Ham; lia|].
      split; [by apply Hrow|].
      intros b Hb.
      destruct (lookup_lt_is_Some_2 qs b) as [q Hq]; [lia|].
      exists q. split; [by apply Hrow|]. split.
      * apply Hle. by eapply list_elem_of_lookup_2.
      * intros Hba. by eapply Hfirst.
    + assert (s < k)%nat as Hsk by lia.
      destruct (Hdone s Hsk) as (v0 & a & Hv0 & Ha & Halt & Hupd & Hall).
      unfold backed_up. simpl in *.
      rewrite take_insert_ge by lia.
      exists v0, a. rewrite !list_lookup_insert_ne by lia. done.
  - destruct Hdelta as (Hall & Hzero & Hex). split; [|split].
    + intros s v0 v' Hs Hv0 Hv'. destruct (decide (s = k)) as [->|Hne].
      * rewrite list_lookup_insert_eq in Hv' by lia.
        injection Hv' as <-. rewrite <- Hvk in Hv0. injection Hv0 as <-. done.
      * rewrite list_lookup_insert_ne in Hv' by lia.
        assert (Qabs (v0 - v') <= delta_k)%Q; [|lra].
        apply (Hall s); [lia|done|done].
    + lia.
    + intros _.
      assert (exists s v0 v', (s < S k)%nat /\ _values self !! s = Some v0
                /\ <[k:=mx]> (_values self_k) !! s = Some v'
                /\ (Qabs (v - mx) == Qabs (v0 - v'))%Q) as Hhere.
      { exists k, v, mx. rewrite list_lookup_insert_eq by lia.
        split; [lia|]. split; [done|]. split; [done|]. reflexivity. }
      destruct Hmax3 as [Hmax3|Hmax3]; rewrite Hmax3 in *; [|done].
      destruct (decide (k = 0)%nat) as [->|Hpos].
      * rewrite (Hzero eq_refl) in *.
        destruct Hhere as (s & v0 & v' & ? & ? & ? & Heq).
        exists s, v0, v'. repeat split; try done.
        pose proof (Qabs_nonneg (v - mx)). lra.
      * destruct Hex as (s & v0 & v' & Hs & Hv0 & Hv' & Heq); [lia|].
        exists s, v0, v'. rewrite list_lookup_insert_ne by lia.
        repeat split; [lia|done|done|done].
  - lra.
Qed.

Lemma sweep_upto_swept k self self' delta :
  sweep_upto k self = Some (self', delta) -> swept k self self' delta.
Proof.
  revert self' delta. induction k as [|k IH]; intros self' delta.
  - intros [= <- <-]. apply swept_0.
  - rewrite sweep_upto_S.
    destruct (sweep_upto k self) as [[self_k delta_k]|]; simpl; [|done].
    intros Hstep. eapply swept_S; [by apply IH|done].
Qed.

(** One sweep backs up every state in turn and returns the largest
    change of value. *)
Lemma sweep_spec self self' delta :
  ValueIteration.sweep self = Some (self', delta) ->
  swept (n_states (config (model self))) self self' delta.
Proof. apply sweep_upto_swept. Qed.


(** *** Value iteration: when the loop stops *)

Lemma while_delta_unfold fuel self delta :
  ValueIteration.while_delta fuel self delta
  = if Qlt_le_dec (eps self) delta then
      match fuel with
      | O => Timeout
      | S fuel' =>
          match ValueIteration.sweep self with
          | None => Raised
          | Some (self', delta') => ValueIteration.while_delta fuel' self' delta'
          end
      end
    else Done self.
Proof. destruct fuel; reflexivity. Qed.




(** *** Well-formed solvers never raise *)

Lemma model_ok_value_ok m s a :
  model_ok m = true ->
  (s < n_states (config m))%nat -> (a < n_actions (config m))%nat ->
  value_ok m (n_states (config m)) s a = true.
Proof.
  unfold model_ok, range. rewrite forallb_forall. intros Hok Hs Ha.
  specialize (Hok s). rewrite forallb_forall in Hok.
  apply Hok; apply in_seq; lia.
Qed.

Lemma init_well_formed m g e :
  model_ok m = true -> (0 < n_actions (config m))%nat ->
  well_formed (__init__ m g e).
Proof.
  intros Hok Hact. split; simpl; try done.
  - apply length_replicate.
  - apply length_replicate.
  - intros s a [-> _]%lookup_replicate. done.
Qed.

Lemma update_value_wf self s a :
  well_formed self ->
  (s < n_states (config (model self)))%nat ->
  (a < n_actions (config (model self)))%nat ->
  is_Some (_update_value self s a).
Proof.
  intros [Hok _ Hlen _ _] Hs Ha.
  unfold _update_value. rewrite update_value_Q_value; [by eexists|].
  rewrite Hlen. by apply model_ok_value_ok.
Qed.

Lemma action_values_wf self s :
  well_formed self ->
  (s < n_states (config (model self)))%nat ->
  exists qs, action_values self s = Some qs
             /\ length qs = n_actions (config (model self)).
Proof.
  intros Hwf Hs.
  destruct (mapM_is_Some_2 (fun a => _update_value self s a)
              (range (n_actions (config (model self))))) as [qs Hqs].
  - apply Forall_forall. intros a Ha. apply update_value_wf; [done|done|].
    apply list_elem_of_In, in_seq in Ha. lia.
  - exists qs. split; [done|].
    apply length_mapM in Hqs. unfold range in Hqs. by rewrite length_seq in Hqs.
Qed.

Lemma set_values_wf self values :
  well_formed self -> length values = length (_values self) ->
  well_formed (set_values self values).
Proof. intros [] Hlen. split; simpl; try done. congruence. Qed.

Lemma set_policy_wf self s a :
  well_formed self -> (a < n_actions (config (model self)))%nat ->
  well_formed (set_policy self (<[s := a]> (_policy self))).
Proof.
  intros [? ? ? Hlen Hrange] Ha. split; simpl; try done.
  - by rewrite length_insert.
  - intros s' a'. destruct (decide (s = s')) as [<-|Hne].
    + destruct (decide (s < length (_policy self))%nat).
      * rewrite list_lookup_insert_eq by done. by intros [= <-].
      * rewrite list_insert_ge by lia. apply Hrange.
    + rewrite list_lookup_insert_ne by done. apply Hrange.
Qed.

Lemma sweep_state_wf s self delta :
  well_formed self ->
  (s < n_states (config (model self)))%nat ->
  exists self' delta',
    ValueIteration.sweep_state s (self, delta) = Some (self', delta')
    /\ well_formed self' /\ model self' = model self.
Proof.
  intros Hwf Hs. pose proof Hwf as [Hok Hact HlenV HlenP Hrange].
  destruct (action_values_wf self s Hwf Hs) as (qs & Hqs & Hlen).
  assert (qs <> []) as Hne by (destruct qs; [simpl in Hlen; lia|done]).
  destruct (np_max_is_Some qs Hne) as [mx Hmx].
  destruct (np_argmax_is_Some qs Hne) as [am Ham].
  destruct (lookup_lt_is_Some_2 (_values self) s) as [v Hv]; [lia|].
  unfold ValueIteration.sweep_state, Py.setitem.
  rewrite Hv, Hqs. simpl. rewrite Hmx. simpl.
  destruct (decide (s < length (_values self))%nat); [simpl|lia].
  rewrite Ham. simpl.
  destruct (decide (s < length (_policy self))%nat); [simpl|lia].
  rewrite list_lookup_insert_eq by done. simpl.
  eexists _, _. split; [done|]. split; [|done].
  apply (set_policy_wf (set_values self (<[s:=mx]> (_values self)))).
  - apply set_values_wf; [done|]. by rewrite length_insert.
  - simpl. apply np_argmax_lt in Ham. lia.
Qed.

Lemma sweep_wf self :
  well_formed self ->
  exists self' delta,
    ValueIteration.sweep self = Some (self', delta) /\ well_formed self'.
Proof.
  intros Hwf. unfold ValueIteration.sweep.
  destruct (for_each_invariant
              (fun st => well_formed (fst st) /\ model (fst st) = model self)
              (range (n_states (config (model self))))
              ValueIteration.sweep_state (self, 0%Q))
    as ([self' delta] & Hrun & Hwf' & _).
  - intros s [self1 delta1] Hs [Hwf1 Hm1]. simpl in *.
    destruct (sweep_state_wf s self1 delta1 Hwf1) as (self2 & delta2 & Hstep & Hwf2 & Hm2).
    { rewrite Hm1. apply list_elem_of_In, in_seq in Hs. lia. }
    exists (self2, delta2). split; [done|]. split; [done|]. simpl. congruence.
  - done.
  - by exists self', delta.
Qed.

(** On a well-formed solver [ValueIteration.fit] does not raise. *)
Lemma ValueIteration_fit_not_Raised fuel self :
  well_formed self -> ValueIteration.fit fuel self <> Raised.
Proof.
  unfold ValueIteration.fit. generalize (eps self + 1)%Q as delta.
  revert self. induction fuel as [|fuel IH]; intros self delta Hwf;
    rewrite while_delta_unfold; destruct (Qlt_le_dec (eps self) delta); try done.
  destruct (sweep_wf self Hwf) as (self' & delta' & -> & Hwf').
  by apply IH.
Qed.

(** *** Policy iteration *)

Lemma evaluation_while_unfold fuel self delta :
  PolicyIteration.evaluation_while fuel self delta
  = if Qlt_le_dec (eps self) delta then
      match fuel with
      | O => Timeout
      | S fuel' =>
          match PolicyIteration.evaluation_sweep self with
          | None => Raised
          | Some (self', delta') =>
              PolicyIteration.evaluation_while fuel' self' delta'
          end
      end
    else Done self.
Proof. destruct fuel; reflexivity. Qed.

Lemma while_not_stable_unfold budget fuel self policy_stable :
  PolicyIteration.while_not_stable budget fuel self policy_stable
  = if negb (Py.truthy policy_stable) then
      match fuel with
      | O => Timeout
      | S fuel' =>
          match PolicyIteration._policy_improvement self with
          | None => Raised
          | Some (self1, _) =>
              match PolicyIteration._policy_evaluation budget self1 with
              | Done (self2, ret) =>
                  PolicyIteration.while_not_stable budget fuel' self2 ret
              | Raised => Raised
              | Timeout => Timeout
              end
          end
      end
    else Done self.
Proof. destruct fuel; reflexivity. Qed.

(** [_policy_evaluation] hands back [None], whatever it computed. *)
Lemma policy_evaluation_returns_None fuel self self' ret :
  PolicyIteration._policy_evaluation fuel self = Done (self', ret) ->
  ret = Py.PyNone.
Proof.
  unfold PolicyIteration._policy_evaluation.
  destruct (PolicyIteration.evaluation_while _ _ _); [|done|done].
  by intros [= _ <-].
Qed.

Lemma while_not_stable_never_Done budget fuel self policy_stable self' :
  Py.truthy policy_stable = false ->
  PolicyIteration.while_not_stable budget fuel self policy_stable <> Done self'.
Proof.
  revert self policy_stable.
  induction fuel as [|fuel IH]; intros self policy_stable Hfalse;
    rewrite while_not_stable_unfold, Hfalse; simpl; [done|].
  destruct (PolicyIteration._policy_improvement self) as [[self1 _]|]; [|done].
  destruct (PolicyIteration._policy_evaluation budget self1)
    as [[self2 ret]| |] eqn:Heval; [|done|done].
  apply IH. by rewrite (policy_evaluation_returns_None _ _ _ _ Heval).
Qed.

(** Whatever the model and however much fuel, [PolicyIteration.fit]
    does not return. *)
Lemma PolicyIteration_fit_never_Done fuel self self' :
  PolicyIteration.fit fuel self <> Done self'.
Proof. by apply while_not_stable_never_Done. Qed.

Lemma evaluate_state_wf s self delta :
  well_formed self ->
  (s < n_states (config (model self)))%nat ->
  exists self' delta',
    PolicyIteration.evaluate_state s (self, delta) = Some (self', delta')
    /\ well_formed self' /\ model self' = model self.
Proof.
  intros Hwf Hs. pose proof Hwf as [Hok Hact HlenV HlenP Hrange].
  destruct (lookup_lt_is_Some_2 (_values self) s) as [v Hv]; [lia|].
  destruct (lookup_lt_is_Some_2 (_policy self) s) as [a Ha]; [lia|].
  destruct (update_value_wf self s a Hwf Hs) as [q Hq]; [by eapply Hrange|].
  unfold PolicyIteration.evaluate_state, Py.setitem.
  rewrite Hv, Ha. simpl. rewrite Hq. simpl.
  destruct (decide (s < length (_values self))%nat); [simpl|lia].
  rewrite list_lookup_insert_eq by done. simpl.
  eexists _, _. split; [done|]. split; [|done].
  apply set_values_wf; [done|]. by rewrite length_insert.
Qed.

Lemma evaluation_sweep_wf self :
  well_formed self ->
  exists self' delta,
    PolicyIteration.evaluation_sweep self = Some (self', delta)
    /\ well_formed self'.
Proof.
  intros Hwf. unfold PolicyIteration.evaluation_sweep.
  destruct (for_each_invariant
              (fun st => well_formed (fst st) /\ model (fst st) = model self)
              (range (n_states (config (model self))))
              PolicyIteration.evaluate_state (self, 0%Q))
    as ([self' delta] & Hrun & Hwf' & _).
  - intros s [self1 delta1] Hs [Hwf1 Hm1]. simpl in *.
    destruct (evaluate_state_wf s self1 delta1 Hwf1)
      as (self2 & delta2 & Hstep & Hwf2 & Hm2).
    { rewrite Hm1. apply list_elem_of_In, in_seq in Hs. lia. }
    exists (self2, delta2). split; [done|]. split; [done|]. simpl. congruence.
  - done.
  - by exists self', delta.
Qed.

Lemma evaluation_while_wf fuel self delta :
  well_formed self ->
  match PolicyIteration.evaluation_while fuel self delta with
  | Done self' => well_formed self'
  | Raised => False
  | Timeout => True
  end.
Proof.
  revert self delta. induction fuel as [|fuel IH]; intros self delta Hwf;
    rewrite evaluation_while_unfold; destruct (Qlt_le_dec (eps self) delta);
    try done.
  destruct (evaluation_sweep_wf self Hwf) as (self' & delta' & -> & Hwf').
  by apply IH.
Qed.

Lemma improve_state_wf s self stable :
  well_formed self ->
  (s < n_states (config (model self)))%nat ->
  exists self' stable',
    PolicyIteration.improve_state s (self, stable) = Some (self', stable')
    /\ well_formed self' /\ model self' = model self.
Proof.
  intros Hwf Hs. pose proof Hwf as [Hok Hact HlenV HlenP Hrange].
  destruct (lookup_lt_is_Some_2 (_policy self) s) as [a Ha]; [lia|].
  destruct (action_values_wf self s Hwf Hs) as (qs & Hqs & Hlen).
  assert (qs <> []) as Hne by (destruct qs; [simpl in Hlen; lia|done]).
  destruct (np_argmax_is_Some qs Hne) as [am Ham].
  unfold PolicyIteration.improve_state, PolicyIteration._update_policy, Py.setitem.
  rewrite Ha. simpl. rewrite Hqs. simpl. rewrite Ham. simpl.
  destruct (decide (s < length (_policy self))%nat); [simpl|lia].
  rewrite list_lookup_insert_eq by done. simpl.
  eexists _, _. split; [done|]. split; [|done].
  apply set_policy_wf; [done|]. apply np_argmax_lt in Ham. lia.
Qed.

Lemma policy_improvement_wf self :
  well_formed self ->
  exists self' ret,
    PolicyIteration._policy_improvement self = Some (self', ret)
    /\ well_formed self'.
Proof.
  intros Hwf. unfold PolicyIteration._policy_improvement.
  destruct (for_each_invariant
              (fun st => well_formed (fst st) /\ model (fst st) = model self)
              (range (n_states (config (model self))))
              PolicyIteration.improve_state (self, true))
    as ([self' stable] & Hrun & Hwf' & _).
  - intros s [self1 stable1] Hs [Hwf1 Hm1]. simpl in *.
    destruct (improve_state_wf s self1 stable1 Hwf1)
      as (self2 & stable2 & Hstep & Hwf2 & Hm2).
    { rewrite Hm1. apply list_elem_of_In, in_seq in Hs. lia. }
    exists (self2, stable2). split; [done|]. split; [done|]. simpl. congruence.
  - done.
  - rewrite Hrun. simpl. by eexists _, _.
Qed.

Lemma while_not_stable_not_Raised budget fuel self policy_stable :
  well_formed self ->
  PolicyIteration.while_not_stable budget fuel self policy_stable <> Raised.
Proof.
  revert self policy_stable.
  induction fuel as [|fuel IH]; intros self policy_stable Hwf;
    rewrite while_not_stable_unfold;
    destruct (negb (Py.truthy policy_stable)); try done.
  destruct (policy_improvement_wf self Hwf) as (self1 & ret1 & -> & Hwf1).
  unfold PolicyIteration._policy_evaluation.
  pose proof (evaluation_while_wf budget self1 (eps self1 + 1)%Q Hwf1) as Heval.
  destruct (PolicyIteration.evaluation_while budget self1 (eps self1 + 1)%Q);
    [|done|done].
  by apply IH.
Qed.

(** On a well-formed solver the loop of [PolicyIteration.fit] is still
    running when the fuel is spent, however much fuel there is. *)
Lemma PolicyIteration_fit_Timeout fuel self :
  well_formed self -> PolicyIteration.fit fuel self = Timeout.
Proof.
  intros Hwf.
  pose proof (PolicyIteration_fit_never_Done fuel self) as Hdone.
  pose proof (while_not_stable_not_Raised fuel fuel self (Py.PyBool false) Hwf)
    as Hraised.
  unfold PolicyIteration.fit in *.
  destruct (PolicyIteration.while_not_stable fuel fuel self (Py.PyBool false));
    [by destruct (Hdone x)|done|done].
Qed.

(** *** Worked instances *)

Lemma update_value_computes_Q_witness :
  value_ok (model coin_solver) (length (_values coin_solver)) 0 0 = true
  /\ _update_value coin_solver 0 0
     = Some (Q_value (model coin_solver) (gamma coin_solver)
                     (_values coin_solver) 0 0).
Proof.
  split; [reflexivity|].
  apply (update_value_computes_Q coin_solver 0 0). reflexivity.
Defined.

(** On [coin_mdp] with [V = [1; 2]] and [γ = 1/2] both sides are 5/4. *)
Example update_value_coin :
  exists q, _update_value coin_solver 0 0 = Some q /\ (q == 5 # 4)%Q.
Proof. eexists. split; [vm_compute; reflexivity|reflexivity]. Qed.

(** Value iteration on [two_state_mdp] with [γ = 1/2] and [eps = 1/10]:
    the fifth pass is the first with [delta <= eps] (1/16, after 1/8),
    so five units of fuel are enough and four are not; both states end
    with action 1. *)
Example ValueIteration_two_state :
  let self0 := __init__ two_state_mdp (1 # 2) (1 # 10) in
  (exists self', ValueIteration.fit 5 self0 = Done self'
                 /\ _policy self' = [1; 1]%nat
                 /\ _values self' = [62 # 32; 62 # 32]%Q)
  /\ ValueIteration.fit 4 self0 = Timeout
  /\ snd <$> sweeps 4 (self0, (1 # 10) + 1)%Q = Some (16 # 128)%Q
  /\ snd <$> sweeps 5 (self0, (1 # 10) + 1)%Q = Some (32 # 512)%Q.
Proof.
  split; [eexists; split; [vm_compute; reflexivity|split; reflexivity]|].
  split; [vm_compute; reflexivity|]. split; vm_compute; reflexivity.
Qed.


Lemma loop_solver_well_formed : well_formed loop_solver.
Proof. apply init_well_formed; [reflexivity|simpl; lia]. Qed.

(** C1 fails on the code.  On [loop_mdp] the first improvement pass
    changes no action and reports the policy stable, and the evaluation
    that follows converges; yet [fit] is still looping when the fuel is
    spent, for every amount of fuel.  Indeed [fit] returns on no solver
    at all: [policy_stable] is bound to the value of
    [_policy_evaluation], which is [None]. *)
Theorem PolicyIteration_fit_never_returns :
  PolicyIteration._policy_improvement loop_solver
    = Some (loop_solver, Py.PyBool true)
  /\ (exists self', PolicyIteration._policy_evaluation 1 loop_solver
                    = Done (self', Py.PyNone))
  /\ (forall fuel, PolicyIteration.fit fuel loop_solver = Timeout)
  /\ (forall fuel self self', PolicyIteration.fit fuel self <> Done self').
Proof.
  split; [vm_compute; reflexivity|].
  split; [eexists; vm_compute; reflexivity|].
  split.
  - intros fuel. apply PolicyIteration_fit_Timeout, loop_solver_well_formed.
  - apply PolicyIteration_fit_never_Done.
Qed.

(** *** Value iteration: what it keeps and where it cannot end *)

Lemma sweep_keeps self self' delta :
  ValueIteration.sweep self = Some (self', delta) ->
  model self' = model self /\ gamma self' = gamma self /\ eps self' = eps self
  /\ (0 <= delta)%Q.
Proof. intros H. by destruct (sweep_spec _ _ _ H). Qed.

Lemma while_delta_keeps fuel self delta self' :
  well_formed self ->
  ValueIteration.while_delta fuel self delta = Done self' ->
  well_formed self'
  /\ model self' = model self /\ gamma self' = gamma self /\ eps self' = eps self.
Proof.
  revert self delta. induction fuel as [|fuel IH]; intros self delta Hwf;
    rewrite while_delta_unfold; destruct (Qlt_le_dec (eps self) delta);
    try done; try (by intros [= <-]).
  destruct (sweep_wf self Hwf) as (self1 & delta1 & Hsweep & Hwf1).
  rewrite Hsweep. intros Hrun.
  destruct (sweep_keeps _ _ _ Hsweep) as (Hm & Hg & He & _).
  destruct (IH self1 delta1 Hwf1 Hrun) as (? & ? & ? & ?).
  split; [done|]. split; [congruence|]. split; congruence.
Qed.

(** X1.  From a well-formed solver [ValueIteration.fit] raises nothing,
    and when it returns, [get_policy()] is an array of [n_states]
    action indices, each below [n_actions], the value table still has
    [n_states] entries, and the model, [gamma] and [eps] are untouched. *)
Theorem ValueIteration_fit_keeps_policy_valid fuel self :
  well_formed self ->
  ValueIteration.fit fuel self <> Raised
  /\ forall self',
       ValueIteration.fit fuel self = Done self' ->
       length (get_policy self') = n_states (config (model self))
       /\ Forall (fun a => (a < n_actions (config (model self)))%nat)
                 (get_policy self')
       /\ length (_values self') = n_states (config (model self))
       /\ model self' = model self /\ gamma self' = gamma self
       /\ eps self' = eps self.
Proof.
  intros Hwf. split; [by apply ValueIteration_fit_not_Raised|].
  intros self' Hfit.
  destruct (while_delta_keeps _ _ _ _ Hwf Hfit) as ([_ _ HV HP Hrange] & Hm & Hg & He).
  rewrite Hm in *. unfold get_policy.
  split; [done|]. split; [|done].
  apply Forall_lookup. intros s a. apply Hrange.
Qed.

Lemma ValueIteration_fit_keeps_policy_valid_witness :
  well_formed two_state_solver
  /\ exists self',
       ValueIteration.fit 5 two_state_solver = Done self'
       /\ length (get_policy self') = 2%nat
       /\ Forall (fun a => (a < 2)%nat) (get_policy self').
Proof.
  assert (well_formed two_state_solver) as Hwf
    by (apply init_well_formed; [reflexivity|simpl; lia]).
  split; [exact Hwf|].
  destruct (ValueIteration.fit 5 two_state_solver) as [self'| |] eqn:Hfit;
    [|vm_compute in Hfit; discriminate|vm_compute in Hfit; discriminate].
  exists self'. split; [reflexivity|].
  destruct (ValueIteration_fit_keeps_policy_valid 5 two_state_solver Hwf)
    as [_ Hdone].
  destruct (Hdone self' Hfit) as (Hlen & Hall & _).
  split; [exact Hlen|exact Hall].
Defined.






(** *** [init] *)

Lemma in_action_range_spec n_actions (policy : list Z) :
  in_action_range n_actions policy = true
  <-> Forall (fun a => (0 <= a < Z.of_nat n_actions)%Z) policy.
Proof.
  unfold in_action_range. rewrite andb_true_iff, !forallb_forall, Forall_forall.
  setoid_rewrite <- list_elem_of_In.
  split.
  - intros [Hlo Hhi] a Ha. specialize (Hlo a Ha). specialize (Hhi a Ha). lia.
  - intros Hall. split; intros a Ha; specialize (Hall a Ha); lia.
Qed.

Lemma of_nat_to_nat_fmap (policy : list Z) :
  Forall (fun a => (0 <= a)%Z) policy -> Z.of_nat <$> (Z.to_nat <$> policy) = policy.
Proof.
  induction 1 as [|a policy Ha _ IH]; [done|].
  rewrite !fmap_cons, IH. f_equal. lia.
Qed.

(** X4.  On a solver whose model is in order and has an action, [init]
    with both arguments returns only if the two arrays are valid; the
    object then holds exactly the arrays handed in, it is well formed,
    and a [ValueIteration.fit] started from it raises nothing. *)
Theorem init_then_fit self values policy self' :
  model_ok (model self) = true ->
  (0 < n_actions (config (model self)))%nat ->
  init self (Some values) (Some policy) = Returned self' ->
  _values self' = values
  /\ Z.of_nat <$> get_policy self' = policy
  /\ length values = n_states (config (model self))
  /\ length policy = n_states (config (model self))
  /\ well_formed self'
  /\ forall fuel, ValueIteration.fit fuel self' <> Raised.
Proof.
  intros Hok Hact. unfold init.
  destruct (decide (length values = n_states (config (model self)))) as [HV|]; [|done].
  simpl.
  destruct (decide (length policy = n_states (config (model self)))) as [HP|]; [|done].
  destruct (in_action_range _ policy) eqn:Hrange; [|done].
  apply in_action_range_spec in Hrange. intros [= <-]. simpl.
  assert (well_formed
            (set_policy (set_values self values) (Z.to_nat <$> policy))) as Hwf.
  { split; simpl; try done.
    - by rewrite length_fmap.
    - intros s a Ha. apply list_lookup_fmap_Some in Ha as (z & -> & Hz).
      rewrite Forall_lookup in Hrange. specialize (Hrange s z Hz). lia. }
  split; [done|]. split.
  - apply of_nat_to_nat_fmap. eapply Forall_impl; [exact Hrange|].
    simpl. intros a Ha. lia.
  - split; [done|]. split; [done|]. split; [done|].
    intros fuel. by apply ValueIteration_fit_not_Raised.
Qed.

Lemma init_then_fit_witness :
  exists self',
    init two_state_solver (Some [1; 2]%Q) (Some [1; 0]%Z) = Returned self'
    /\ _values self' = [1; 2]%Q
    /\ get_policy self' = [1; 0]%nat
    /\ ValueIteration.fit 3 self' <> Raised.
Proof.
  eexists. split; [reflexivity|].
  destruct (init_then_fit two_state_solver [1; 2]%Q [1; 0]%Z _
              eq_refl ltac:(simpl; lia) eq_refl)
    as (HV & _ & _ & _ & _ & Hfit).
  split; [exact HV|]. split; [reflexivity|]. apply Hfit.
Defined.

(** X5.  When the value array passes its assertion and the policy array
    does not (wrong length, or an entry outside [[0, n_actions)]),
    [init] raises after it has replaced [_values]: the object keeps its
    old policy and holds the new values. *)
Theorem init_bad_policy_keeps_new_values self values policy :
  length values = n_states (config (model self)) ->
  length policy <> n_states (config (model self))
  \/ Exists (fun a => (a < 0)%Z \/ (Z.of_nat (n_actions (config (model self))) <= a)%Z)
            policy ->
  init self (Some values) (Some policy) = AssertionError (set_values self values).
Proof.
  intros HV Hbad. unfold init.
  destruct (decide (length values = n_states (config (model self)))); [|done].
  simpl.
  destruct (decide (length policy = n_states (config (model self)))) as [HP|]; [|done].
  destruct Hbad as [Hlen|Hex]; [done|].
  destruct (in_action_range _ policy) eqn:Hrange; [|done].
  apply in_action_range_spec in Hrange.
  apply Exists_exists in Hex as (a & Ha & Hout).
  rewrite Forall_forall in Hrange. specialize (Hrange a Ha). lia.
Qed.

Lemma init_bad_policy_keeps_new_values_witness :
  init two_state_solver (Some [1; 2]%Q) (Some [0; 2]%Z)
  = AssertionError (set_values two_state_solver [1; 2]%Q)
  /\ _values (set_values two_state_solver [1; 2]%Q) <> _values two_state_solver.
Proof.
  split; [|discriminate].
  apply (init_bad_policy_keeps_new_values two_state_solver); [reflexivity|].
  right. apply Exists_cons_tl, Exists_cons_hd. right. simpl. lia.
Defined.

(** *** Policy iteration: the two passes *)

Lemma argmax_greedy m gamma values s qs a :
  Q_row m gamma values s = Some qs ->
  Numpy.argmax qs = Some a ->
  exists v, greedy m gamma values s a v.
Proof.
  intros Hqs Ham.
  destruct (Q_row_lookup _ _ _ _ _ Hqs) as [Hlen Hrow].
  destruct (np_argmax_spec _ _ Ham) as (v & Hmx & Hav & Hfirst).
  destruct (np_max_spec _ _ Hmx) as [_ Hle].
  exists v. split; [apply np_argmax_lt in Ham; lia|]. split; [by apply Hrow|].
  intros b Hb.
  destruct (lookup_lt_is_Some_2 qs b) as [q Hq]; [lia|].
  exists q. split; [by apply Hrow|]. split.
  - apply Hle. by eapply list_elem_of_lookup_2.
  - intros Hba. by eapply Hfirst.
Qed.

Lemma improve_state_inv s self stable self' stable' :
  PolicyIteration.improve_state s (self, stable) = Some (self', stable') ->
  exists a qs a',
    _policy self !! s = Some a
    /\ action_values self s = Some qs
    /\ Numpy.argmax qs = Some a'
    /\ self' = set_policy self (<[s := a']> (_policy self))
    /\ stable' = (if decide (a' <> a) then false else stable).
Proof.
  unfold PolicyIteration.improve_state, PolicyIteration._update_policy, Py.setitem.
  destruct (_policy self !! s) as [a|] eqn:Ha; simpl; [|done].
  destruct (action_values self s) as [qs|] eqn:Hqs; simpl; [|done].
  destruct (Numpy.argmax qs) as [a'|] eqn:Ham; simpl; [|done].
  apply lookup_lt_Some in Ha as Hlt.
  destruct (decide (s < length (_policy self))%nat); [simpl|lia].
  rewrite list_lookup_insert_eq by done. simpl.
  intros [= <- <-]. by exists a, qs, a'.
Qed.

Lemma improved_upto_0 self : improved_upto 0 self self true.
Proof.
  split; try done; try lia.
  all: intros s Hs; lia.
Qed.

Lemma improved_upto_S k self self_k stable_k self' stable' :
  improved_upto k self self_k stable_k ->
  PolicyIteration.improve_state k (self_k, stable_k) = Some (self', stable') ->
  improved_upto (S k) self self' stable'.
Proof.
  intros [Hm Hg He HV Hlen Hbound Hrest Hdone Hstable] Hstep.
  apply improve_state_inv in Hstep as (a & qs & a' & Ha & Hqs & Ham & -> & ->).
  apply lookup_lt_Some in Ha as Hlt.
  rewrite action_values_Q_row, Hm, Hg, HV in Hqs.
  pose proof (Hrest k (Nat.le_refl k)) as Hk. rewrite Ha in Hk.
  split; simpl; try done.
  - by rewrite length_insert.
  - lia.
  - intros s Hs. rewrite list_lookup_insert_ne by lia. apply Hrest. lia.
  - intros s Hs. destruct (decide (s = k)) as [->|Hne].
    + destruct (argmax_greedy _ _ _ _ _ _ Hqs Ham) as [v Hv].
      exists a', v. by rewrite list_lookup_insert_eq by lia.
    + rewrite list_lookup_insert_ne by lia. apply Hdone. lia.
  - destruct (decide (a' <> a)) as [Hne|Heq].
    + split; [done|]. intros Hall. specialize (Hall k ltac:(lia)).
      rewrite list_lookup_insert_eq in Hall by lia. congruence.
    + assert (a' = a) as -> by (destruct (decide (a' = a)); [done|contradiction]).
      rewrite Hstable. split.
      * intros Hall s Hs. destruct (decide (s = k)) as [->|Hne].
        -- by rewrite list_lookup_insert_eq by lia.
        -- rewrite list_lookup_insert_ne by lia. apply Hall. lia.
      * intros Hall s Hs. specialize (Hall s ltac:(lia)).
        by rewrite list_lookup_insert_ne in Hall by lia.
Qed.

Lemma improvement_upto k self self' stable :
  for_each (range k) PolicyIteration.improve_state (self, true) = Some (self', stable) ->
  improved_upto k self self' stable.
Proof.
  intros Hrun.
  apply (for_each_range_partial
           (fun k st => improved_upto k self (fst st) (snd st))
           k _ (self, true) (self', stable) Hrun).
  - apply improved_upto_0.
  - intros i [self1 stable1] [self2 stable2] _ Hinv Hstep. simpl in *.
    by eapply improved_upto_S.
Qed.

(** X6.  A pass of [_policy_improvement] that returns leaves the value
    table, the model, [gamma] and [eps] alone; it gives every state its
    first greedy action over that value table; and the flag it returns
    is [True] exactly when no state's action differs from before. *)
Theorem policy_improvement_spec self self' ret :
  PolicyIteration._policy_improvement self = Some (self', ret) ->
  _values self' = _values self
  /\ model self' = model self /\ gamma self' = gamma self /\ eps self' = eps self
  /\ length (_policy self') = length (_policy self)
  /\ (forall s, (s < n_states (config (model self)))%nat ->
        exists a v, get_policy self' !! s = Some a
                    /\ greedy (model self) (gamma self) (_values self) s a v)
  /\ (exists stable, ret = Py.PyBool stable
        /\ (stable = true <-> get_policy self' = get_policy self)).
Proof.
  unfold PolicyIteration._policy_improvement.
  destruct (for_each _ _ _) as [[self1 stable]|] eqn:Hrun; [|done]. simpl.
  intros [= <- <-].
  apply improvement_upto in Hrun
    as [Hm Hg He HV Hlen Hbound Hrest Hdone Hstable].
  repeat (split; [done|]).
  exists stable. split; [done|]. rewrite Hstable. unfold get_policy. split.
  - intros Hall. apply list_eq. intros s.
    destruct (decide (s < n_states (config (model self)))%nat).
    + by apply Hall.
    + apply Hrest. lia.
  - by intros ->.
Qed.

Lemma policy_improvement_spec_witness :
  exists self',
    PolicyIteration._policy_improvement two_state_solver
      = Some (self', Py.PyBool false)
    /\ get_policy self' = [1; 1]%nat
    /\ _values self' = _values two_state_solver.
Proof.
  destruct (PolicyIteration._policy_improvement two_state_solver)
    as [[self' ret]|] eqn:Hrun; [|vm_compute in Hrun; discriminate].
  destruct (policy_improvement_spec two_state_solver self' ret Hrun)
    as (HV & _ & _ & _ & _ & _ & _).
  exists self'. split; [|split; [|exact HV]].
  - vm_compute in Hrun. injection Hrun as <- <-. reflexivity.
  - vm_compute in Hrun. injection Hrun as <- _. reflexivity.
Defined.

(** The change of one entry carries the largest change one state on. *)
Lemma max_change_step k values values_k delta_k v x :
  max_change k values values_k delta_k ->
  (0 <= delta_k)%Q ->
  values !! k = Some v ->
  (k < length values_k)%nat ->
  max_change (S k) values (<[k := x]> values_k) (Py.max2 delta_k (Qabs (v - x))).
Proof.
  intros (Hall & Hzero & Hex) Hnonneg Hv Hlt.
  destruct (max2_spec delta_k (Qabs (v - x))) as (Hmax1 & Hmax2 & Hmax3).
  split; [|split].
  - intros s v0 v' Hs Hv0 Hv'. destruct (decide (s = k)) as [->|Hne].
    + rewrite list_lookup_insert_eq in Hv' by lia.
      injection Hv' as <-. rewrite Hv in Hv0. injection Hv0 as <-. done.
    + rewrite list_lookup_insert_ne in Hv' by lia.
      assert (Qabs (v0 - v') <= delta_k)%Q; [|lra].
      apply (Hall s); [lia|done|done].
  - lia.
  - intros _.
    assert (exists s v0 v', (s < S k)%nat /\ values !! s = Some v0
              /\ <[k:=x]> values_k !! s = Some v'
              /\ (Qabs (v - x) == Qabs (v0 - v'))%Q) as Hhere.
    { exists k, v, x. rewrite list_lookup_insert_eq by lia.
      split; [lia|]. split; [done|]. split; [done|]. reflexivity. }
    destruct Hmax3 as [Hmax3|Hmax3]; rewrite Hmax3 in *; [|done].
    destruct (decide (k = 0)%nat) as [->|Hpos].
    + rewrite (Hzero eq_refl) in *.
      destruct Hhere as (s & v0 & v' & ? & ? & ? & Heq).
      exists s, v0, v'. repeat split; try done.
      pose proof (Qabs_nonneg (v - x)). lra.
    + destruct Hex as (s & v0 & v' & Hs & Hv0 & Hv' & Heq); [lia|].
      exists s, v0, v'. rewrite list_lookup_insert_ne by lia.
      repeat split; [lia|done|done|done].
Qed.

Lemma evaluate_state_inv s self delta self' delta' :
  PolicyIteration.evaluate_state s (self, delta) = Some (self', delta') ->
  exists v a q,
    _values self !! s = Some v
    /\ _policy self !! s = Some a
    /\ _update_value self s a = Some q
    /\ self' = set_values self (<[s := q]> (_values self))
    /\ delta' = Py.max2 delta (Qabs (v - q)).
Proof.
  unfold PolicyIteration.evaluate_state, Py.setitem.
  destruct (_values self !! s) as [v|] eqn:Hv; simpl; [|done].
  destruct (_policy self !! s) as [a|] eqn:Ha; simpl; [|done].
  destruct (_update_value self s a) as [q|] eqn:Hq; simpl; [|done].
  apply lookup_lt_Some in Hv as Hlt.
  destruct (decide (s < length (_values self))%nat); [simpl|lia].
  rewrite list_lookup_insert_eq by done. simpl.
  intros [= <- <-]. by exists v, a, q.
Qed.

Lemma evaluated_upto_0 self : evaluated_upto 0 self self 0%Q.
Proof.
  split; try done; try lia; try lra.
  all: try (intros s Hs; lia).
  split; [intros s v v' Hs; lia|]. split; [done|lia].
Qed.

Lemma evaluated_upto_S k self self_k delta_k self' delta' :
  evaluated_upto k self self_k delta_k ->
  PolicyIteration.evaluate_state k (self_k, delta_k) = Some (self', delta') ->
  evaluated_upto (S k) self self' delta'.
Proof.
  intros [Hm Hg He HP Hlen Hbound Hrest Hdone Hdelta Hnonneg] Hstep.
  apply evaluate_state_inv in Hstep as (v & a & q & Hv & Ha & Hq & -> & ->).
  apply lookup_lt_Some in Hv as HkV.
  pose proof (Hrest k (Nat.le_refl k)) as Hvk. rewrite Hv in Hvk.
  unfold _update_value in Hq. rewrite Hm, Hg in Hq. rewrite HP in Ha.
  destruct (max2_spec delta_k (Qabs (v - q))) as (Hmax1 & _).
  split; simpl; try done.
  - by rewrite length_insert.
  - lia.
  - intros s Hs. rewrite list_lookup_insert_ne by lia. apply Hrest. lia.
  - intros s Hs. unfold evaluated. simpl.
    rewrite take_insert_ge by lia.
    destruct (decide (s = k)) as [->|Hne].
    + assert (take k (_values self_k) ++ drop k (_values self) = _values self_k)
        as ->.
      { apply list_eq. intros i. rewrite lookup_take_drop by lia.
        destruct (decide (i < k)%nat); [done|]. symmetry. apply Hrest. lia. }
      exists a, q. by rewrite list_lookup_insert_eq by lia.
    + destruct (Hdone s ltac:(lia)) as (a0 & v0 & Ha0 & Hv0 & Hupd).
      exists a0, v0. by rewrite list_lookup_insert_ne by lia.
  - by apply max_change_step.
  - lra.
Qed.

Lemma evaluation_upto k self self' delta :
  for_each (range k) PolicyIteration.evaluate_state (self, 0%Q) = Some (self', delta) ->
  evaluated_upto k self self' delta.
Proof.
  intros Hrun.
  apply (for_each_range_partial
           (fun k st => evaluated_upto k self (fst st) (snd st))
           k _ (self, 0%Q) (self', delta) Hrun).
  - apply evaluated_upto_0.
  - intros i [self1 delta1] [self2 delta2] _ Hinv Hstep. simpl in *.
    by eapply evaluated_upto_S.
Qed.

(** X7.  One sweep of [_policy_evaluation] that does not raise sets, state
    after state and in place, [V(s)] to the Q-value of the policy's
    action for [s]; it yields the largest [|V_old(s) - V_new(s)|] and
    leaves the policy alone. *)
Theorem evaluation_sweep_spec self self' delta :
  PolicyIteration.evaluation_sweep self = Some (self', delta) ->
  let n := n_states (config (model self)) in
  get_policy self' = get_policy self
  /\ length (_values self') = length (_values self)
  /\ (forall s, (s < n)%nat -> evaluated self self' s)
  /\ max_change n (_values self) (_values self') delta.
Proof.
  intros Hrun n. apply evaluation_upto in Hrun as []. done.
Qed.

Lemma evaluation_sweep_spec_witness :
  exists self' delta,
    PolicyIteration.evaluation_sweep two_state_solver = Some (self', delta)
    /\ get_policy self' = get_policy two_state_solver
    /\ max_change 2 (_values two_state_solver) (_values self') delta.
Proof.
  destruct (PolicyIteration.evaluation_sweep two_state_solver)
    as [[self' delta]|] eqn:Hrun; [|vm_compute in Hrun; discriminate].
  exists self', delta. split; [reflexivity|].
  destruct (evaluation_sweep_spec two_state_solver self' delta Hrun)
    as (HP & _ & _ & Hdelta).
  split; [exact HP|exact Hdelta].
Defined.

Lemma evaluation_while_keeps fuel self delta self' :
  PolicyIteration.evaluation_while fuel self delta = Done self' ->
  _policy self' = _policy self /\ model self' = model self
  /\ gamma self' = gamma self /\ eps self' = eps self
  /\ length (_values self') = length (_values self).
Proof.
  revert self delta. induction fuel as [|fuel IH]; intros self delta;
    rewrite evaluation_while_unfold; destruct (Qlt_le_dec (eps self) delta);
    try done; try (by intros [= <-]).
  destruct (PolicyIteration.evaluation_sweep self) as [[self1 delta1]|] eqn:Hsweep;
    [|done].
  apply evaluation_upto in Hsweep as [Hm Hg He HP Hlen _ _ _ _ _].
  intros Hrun. destruct (IH _ _ Hrun) as (? & ? & ? & ? & ?).
  repeat split; congruence.
Qed.

(** X8.  From a well-formed solver [_policy_evaluation] raises nothing;
    when it returns, its value is [None], only the value table has
    changed (the policy, the model, [gamma], [eps] and the length of
    the table are as before), and the solver is still well formed. *)
Theorem policy_evaluation_keeps fuel self :
  well_formed self ->
  PolicyIteration._policy_evaluation fuel self <> Raised
  /\ forall self' ret,
       PolicyIteration._policy_evaluation fuel self = Done (self', ret) ->
       ret = Py.PyNone
       /\ get_policy self' = get_policy self /\ model self' = model self
       /\ gamma self' = gamma self /\ eps self' = eps self
       /\ length (_values self') = length (_values self)
       /\ well_formed self'.
Proof.
  intros Hwf. unfold PolicyIteration._policy_evaluation.
  pose proof (evaluation_while_wf fuel self (eps self + 1)%Q Hwf) as Hwf'.
  destruct (PolicyIteration.evaluation_while fuel self (eps self + 1))
    as [self1| |] eqn:Hrun; [|done|done].
  split; [done|]. intros self' ret [= <- <-]. split; [done|].
  destruct (evaluation_while_keeps _ _ _ _ Hrun) as (? & ? & ? & ? & ?).
  done.
Qed.

Lemma policy_evaluation_keeps_witness :
  well_formed loop_solver
  /\ exists self',
       PolicyIteration._policy_evaluation 1 loop_solver = Done (self', Py.PyNone)
       /\ get_policy self' = get_policy loop_solver
       /\ well_formed self'.
Proof.
  split; [exact loop_solver_well_formed|].
  destruct (PolicyIteration._policy_evaluation 1 loop_solver)
    as [[self' ret]| |] eqn:Hrun;
    [|vm_compute in Hrun; discriminate|vm_compute in Hrun; discriminate].
  destruct (policy_evaluation_keeps 1 loop_solver loop_solver_well_formed)
    as [_ Hdone].
  rewrite Hrun in Hdone.
  destruct (Hdone self' ret eq_refl) as (-> & HP & _ & _ & _ & _ & Hwf').
  exists self'. split; [reflexivity|]. split; [exact HP|exact Hwf'].
Defined.

End PoliciesFacts.

(** ** Facts about [data.py] *)

Module DataFacts.
Import Data.

Lemma step_results_app l1 l2 :
  step_results (l1 ++ l2) = step_results l1 ++ step_results l2.
Proof. apply omap_app. Qed.

Lemma sampled_app l1 l2 : sampled (l1 ++ l2) = sampled l1 ++ sampled l2.
Proof. apply omap_app. Qed.

Lemma seeds_app l1 l2 : seeds (l1 ++ l2) = seeds l1 ++ seeds l2.
Proof. apply omap_app. Qed.

Section Facts.
Context {World : Type}.
Variable reset : Z -> World -> nat * World.
Variable step : nat -> World -> StepResult * World.
Variable current_state : World -> nat.
Variable random : World -> Q * World.
Variable sample : World -> nat * World.
Variable policy : nat -> nat.

Local Abbreviation expert_loop := (Data.expert_loop World step policy).
Local Abbreviation expert_rollout := (Data.expert_rollout World reset step policy).
Local Abbreviation replay_step := (Data.replay_step World step random sample policy).
Local Abbreviation replay_loop := (Data.replay_loop World step random sample policy).
Local Abbreviation replay_start :=
  (Data.replay_start World reset current_state).
Local Abbreviation replay :=
  (Data.replay World reset step current_state random sample policy).
Local Abbreviation create :=
  (Data.create World reset step current_state random sample policy).
Local Abbreviation rollout_rewards := (Data.rollout_rewards World step policy).

(** *** The expert rollout *)

Lemma expert_loop_target n (e : Expert World) :
  expert_target_return (expert_loop n e)
  = fold_left Qplus (rollout_rewards n (expert_world e) (expert_state e))
              (expert_target_return e).
Proof.
  revert e. induction n as [|n IH]; intros e; simpl; [done|].
  destruct (step (policy (expert_state e)) (expert_world e)) as [res w].
  destruct (stops res); [done|]. by rewrite IH.
Qed.

Lemma expert_loop_seeds n (e : Expert World) :
  seeds (expert_log (expert_loop n e)) = seeds (expert_log e).
Proof.
  revert e. induction n as [|n IH]; intros e; simpl; [done|].
  destruct (step (policy (expert_state e)) (expert_world e)) as [res w].
  destruct (stops res); [|rewrite IH]; simpl;
    by rewrite seeds_app, app_nil_r.
Qed.

(** *** One step of a replay *)

Lemma replay_step_cases p t (r : Replay World) :
  exists u w1 player action w2 drawn res w3,
    random (world r) = (u, w1)
    /\ (((u < p)%Q /\ sample w1 = (action, w2) /\ player = RandomPlayer
         /\ drawn = [CallRandom u; CallSample action])
        \/ ((p <= u)%Q /\ action = policy (state r) /\ w2 = w1
            /\ player = PolicyPlayer /\ drawn = [CallRandom u]))
    /\ step action w2 = (res, w3)
    /\ replay_step p t r
       = ({| world := w3;
             state := next_state res;
             states := states r ++ [state r];
             actions := actions r ++ [action];
             rewards := rewards r ++ [reward res];
             times := times r ++ [t];
             Data.t := Some t;
             log := log r ++ drawn ++ [CallStep (Some player) action res] |},
          stops res).
Proof.
  unfold Data.replay_step.
  destruct (random (world r)) as [u w1].
  destruct (Qlt_le_dec u p) as [Hlt|Hle].
  - destruct (sample w1) as [action w2] eqn:Hsample.
    destruct (step action w2) as [res w3] eqn:Hstep.
    exists u, w1, RandomPlayer, action, w2, [CallRandom u; CallSample action], res, w3.
    split; [done|]. split; [left; done|]. by rewrite Hstep.
  - destruct (step (policy (state r)) w1) as [res w3] eqn:Hstep.
    exists u, w1, PolicyPlayer, (policy (state r)), w1, [CallRandom u], res, w3.
    split; [done|]. split; [right; done|]. by rewrite Hstep.
Qed.

(** An invariant of the step is an invariant of the loop. *)
Lemma replay_loop_invariant (Inv : Replay World -> Prop) p ts r :
  (forall t r, Inv r -> Inv (fst (replay_step p t r))) ->
  Inv r -> Inv (replay_loop p ts r).
Proof.
  intros Hstep. revert r. induction ts as [|t ts IH]; intros r Hr; simpl; [done|].
  specialize (Hstep t r Hr).
  destruct (replay_step p t r) as [r' break]. simpl in Hstep.
  destruct break; [done|by apply IH].
Qed.

Lemma replay_step_aligned p t r :
  aligned r -> aligned (fst (replay_step p t r)).
Proof.
  intros (Hs & Ha & Ht & Hr).
  destruct (replay_step_cases p t r)
    as (u & w1 & player & action & w2 & drawn & res & w3 & _ & Hdrawn & _ & ->).
  unfold Data.aligned. simpl.
  assert (step_results drawn = []) as Hnil.
  { destruct Hdrawn as [(_ & _ & _ & ->)|(_ & _ & _ & _ & ->)]; done. }
  rewrite !step_results_app, Hnil. simpl.
  rewrite !length_app, fmap_app. simpl. rewrite Hr.
  repeat split; first [lia|done].
Qed.

(** A replay makes no further call of [reset]. *)
Lemma replay_step_seeds p t r :
  seeds (log (fst (replay_step p t r))) = seeds (log r).
Proof.
  destruct (replay_step_cases p t r)
    as (u & w1 & player & action & w2 & drawn & res & w3 & _ & Hdrawn & _ & ->).
  simpl. rewrite !seeds_app.
  destruct Hdrawn as [(_ & _ & _ & ->)|(_ & _ & _ & _ & ->)]; simpl;
    by rewrite app_nil_r.
Qed.

(** *** The inner loop of a replay *)

Lemma running_stops_only_last rs : running rs -> stops_only_last rs.
Proof.
  intros Hrun j res _ Hj. unfold running in Hrun.
  rewrite Forall_lookup in Hrun. by eapply Hrun.
Qed.

Lemma replay_step_results p t r :
  exists res,
    step_results (log (fst (replay_step p t r))) = step_results (log r) ++ [res]
    /\ snd (replay_step p t r) = stops res
    /\ times (fst (replay_step p t r)) = times r ++ [t]
    /\ Data.t (fst (replay_step p t r)) = Some t.
Proof.
  destruct (replay_step_cases p t r)
    as (u & w1 & player & action & w2 & drawn & res & w3 & _ & Hdrawn & _ & ->).
  exists res. simpl. rewrite !step_results_app.
  destruct Hdrawn as [(_ & _ & _ & ->)|(_ & _ & _ & _ & ->)]; done.
Qed.

(** From [n] steps made, none of which stopped the episode, the loop
    over [t = n, ..., n + len - 1] makes steps up to the first one that
    stops it. *)
Lemma replay_loop_episode p len n (r : Replay World) :
  times r = seq 0 n ->
  length (step_results (log r)) = n ->
  running (step_results (log r)) ->
  let r' := replay_loop p (seq n len) r in
  exists n',
    (n <= n' <= n + len)%nat
    /\ times r' = seq 0 n'
    /\ length (step_results (log r')) = n'
    /\ stops_only_last (step_results (log r'))
    /\ ((0 < len)%nat -> (n < n')%nat /\ Data.t r' = Some (n' - 1)%nat)
    /\ (len = 0%nat -> r' = r)
    /\ ((n' < n + len)%nat ->
        exists res, last (step_results (log r')) = Some res /\ stops res = true).
Proof.
  revert n r. induction len as [|len IH]; intros n r Htimes Hlen Hrun; simpl.
  - exists n. split; [lia|]. split; [done|]. split; [done|].
    split; [by apply running_stops_only_last|].
    split; [lia|]. split; [done|lia].
  - destruct (replay_step_results p n r) as (res & Hres & Hbreak & Ht & Htt).
    destruct (replay_step p n r) as [r1 break]. simpl in *. subst break.
    assert (times r1 = seq 0 (S n)) as Htimes1 by (by rewrite Ht, Htimes, seq_S).
    assert (length (step_results (log r1)) = S n) as Hlen1
      by (rewrite Hres, length_app; simpl; lia).
    destruct (stops res) eqn:Hstops.
    + exists (S n). split; [lia|]. split; [done|]. split; [done|].
      split; [|split; [|split; [done|]]].
      * intros j res' Hj Hlook. rewrite Hres in Hlook.
        rewrite Hlen1 in Hj. rewrite lookup_app_l in Hlook by lia.
        unfold running in Hrun. rewrite Forall_lookup in Hrun. by eapply Hrun.
      * intros _. split; [lia|]. rewrite Htt. f_equal. lia.
      * intros _. exists res. by rewrite Hres, last_snoc.
    + destruct (IH (S n) r1 Htimes1 Hlen1)
        as (n' & Hn' & Htimes' & Hlen' & Hlast & Hpos & Hzero & Hshort).
      { rewrite Hres. apply Forall_app. split; [done|]. by constructor. }
      exists n'. split; [lia|]. split; [done|]. split; [done|].
      split; [done|]. split; [|split; [done|]].
      * intros _. split; [lia|].
        destruct len as [|len]; [|apply Hpos; lia].
        simpl in *. rewrite Htt. f_equal. lia.
      * intros Hlt. apply Hshort. lia.
Qed.

(** *** A whole replay *)

Local Abbreviation finished :=
  (Data.finished World reset step current_state random sample policy).

Lemma replay_start_fresh seed (rc : Recorder World) :
  let r := replay_start seed rc in
  states r = [] /\ actions r = [] /\ rewards r = [] /\ times r = []
  /\ Data.t r = rec_t rc
  /\ step_results (log r) = [] /\ sampled (log r) = []
  /\ seeds (log r) = [seed].
Proof.
  unfold Data.replay_start. destruct (reset seed (rec_world rc)) as [state w].
  simpl. done.
Qed.

Lemma finished_aligned max_step p seed rc :
  aligned (finished max_step p seed rc).
Proof.
  unfold Data.finished. apply replay_loop_invariant; [apply replay_step_aligned|].
  destruct (replay_start_fresh seed rc) as (Hs & Ha & Hr & Ht & _ & Hres & _).
  unfold Data.aligned. by rewrite Hs, Ha, Hr, Ht, Hres.
Qed.

Lemma finished_seeds max_step p seed rc :
  seeds (log (finished max_step p seed rc)) = [seed].
Proof.
  unfold Data.finished.
  apply (replay_loop_invariant (fun r => seeds (log r) = [seed])).
  - intros t r Hr. by rewrite replay_step_seeds.
  - apply replay_start_fresh.
Qed.

Lemma finished_shape max_step p seed rc :
  let r := finished max_step p seed rc in
  episode_shape max_step (item_of r) (log r)
  /\ ((0 < max_step)%nat ->
      (0 < length (states r))%nat
      /\ Data.t r = Some (last_index (item_of r)))
  /\ (max_step = 0%nat -> Data.t r = rec_t rc).
Proof.
  intros r.
  destruct (replay_start_fresh seed rc)
    as (Hs & Ha & Hr & Ht & Htt & Hres & _).
  destruct (replay_loop_episode p max_step 0 (replay_start seed rc))
    as (n & Hn & Htimes & Hlen & Hlast & Hpos & Hzero & Hshort).
  { by rewrite Ht. } { by rewrite Hres. } { rewrite Hres. constructor. }
  change (replay_loop p (seq 0 max_step) (replay_start seed rc)) with r
    in Htimes, Hlen, Hlast, Hpos, Hzero, Hshort.
  destruct (finished_aligned max_step p seed rc) as (Hls & Hla & Hlt & Hrew).
  change (finished max_step p seed rc) with r in Hls, Hla, Hlt, Hrew.
  clearbody r.
  assert (length (states r) = n) as Hstates by congruence.
  split; [|split].
  - unfold episode_shape. simpl. rewrite Hstates.
    split; [congruence|]. split; [rewrite Hrew, length_fmap; congruence|].
    split; [congruence|]. split; [lia|]. split; [done|]. split; [done|].
    split.
    + intros j res Hj Hterm.
      apply lookup_lt_Some in Hj as Hjn. rewrite Hlen in Hjn.
      destruct (decide (S j < n)%nat) as [Hlt'|]; [|lia].
      rewrite <- Hlen in Hlt'. specialize (Hlast j res Hlt' Hj).
      unfold stops in Hlast. rewrite Hterm in Hlast. done.
    + intros Hlt'. apply Hshort. lia.
  - intros Hmax. destruct (Hpos Hmax) as [Hn0 Htn].
    unfold last_index. simpl. rewrite Hstates. split; [lia|done].
  - intros ->. rewrite (Hzero eq_refl). done.
Qed.

(** *** Who chooses the action *)

Local Abbreviation follows_policy := (Data.follows_policy World policy).

Section ActionChoice.
(** [np.random.random()] draws from the half-open interval [[0, 1)]. *)
Hypothesis random_range : forall w, (0 <= fst (random w))%Q /\ (fst (random w) < 1)%Q.

Lemma replay_step_follows_policy p t r :
  (p == 0)%Q -> follows_policy r -> follows_policy (fst (replay_step p t r)).
Proof using random_range.
  intros Hp [Hact Hsam].
  destruct (replay_step_cases p t r)
    as (u & w1 & player & action & w2 & drawn & res & w3 & Hu & Hdrawn & _ & ->).
  destruct (random_range (world r)) as [Hge _]. rewrite Hu in Hge. simpl in Hge.
  destruct Hdrawn as [(Hlt & _)|(_ & -> & _ & _ & ->)]; [lra|].
  unfold Data.follows_policy. simpl. rewrite fmap_app, Hact, !sampled_app, Hsam. done.
Qed.

Lemma replay_step_all_sampled p t r :
  (p == 1)%Q -> all_sampled r -> all_sampled (fst (replay_step p t r)).
Proof using random_range.
  intros Hp Hact.
  destruct (replay_step_cases p t r)
    as (u & w1 & player & action & w2 & drawn & res & w3 & Hu & Hdrawn & _ & ->).
  destruct (random_range (world r)) as [_ Hlt]. rewrite Hu in Hlt. simpl in Hlt.
  destruct Hdrawn as [(_ & _ & _ & ->)|(Hle & _)]; [|lra].
  unfold Data.all_sampled in *. simpl. rewrite !sampled_app, Hact. simpl.
  by rewrite ?app_nil_r.
Qed.

Lemma finished_follows_policy max_step p seed rc :
  (p == 0)%Q -> follows_policy (finished max_step p seed rc).
Proof using random_range.
  intros Hp. unfold Data.finished. apply replay_loop_invariant.
  - intros t r. by apply replay_step_follows_policy.
  - destruct (replay_start_fresh seed rc) as (Hs & Ha & _ & _ & _ & _ & Hsam & _).
    unfold Data.follows_policy. by rewrite Hs, Ha, Hsam.
Qed.

Lemma finished_all_sampled max_step p seed rc :
  (p == 1)%Q -> all_sampled (finished max_step p seed rc).
Proof using random_range.
  intros Hp. unfold Data.finished. apply replay_loop_invariant.
  - intros t r. by apply replay_step_all_sampled.
  - destruct (replay_start_fresh seed rc) as (_ & Ha & _ & _ & _ & _ & Hsam & _).
    unfold Data.all_sampled. by rewrite Ha, Hsam.
Qed.

End ActionChoice.

(** *** The outer loop and [create] *)

Lemma replay_inv max_step p seed i rc rc' :
  replay max_step p seed i rc = Some rc' ->
  let r := finished max_step p seed rc in
  exists tt,
    Data.t r = Some tt
    /\ rec_data rc' = rec_data rc ++ [item_of r]
    /\ rec_calls rc' = rec_calls rc ++ [log r]
    /\ rec_min_step rc' = (if (tt <? rec_min_step rc)%nat then tt else rec_min_step rc)
    /\ rec_max_step rc' = (if (rec_max_step rc <? tt)%nat then tt else rec_max_step rc).
Proof.
  unfold Data.replay. intros Hrun.
  set (r := finished max_step p seed rc) in *.
  destruct (Data.t r) as [tt|]; [|done]. simpl in Hrun.
  injection Hrun as <-. by exists tt.
Qed.

(** Whatever holds of every finished replay holds of every recorded
    episode, and one episode is recorded per round. *)
Lemma replays_recorded (P : Item -> list Call -> Prop) max_step p seed n rc0 rc :
  (forall rc1, P (item_of (finished max_step p seed rc1))
                 (log (finished max_step p seed rc1))) ->
  for_each (range n) (replay max_step p seed) rc0 = Some rc ->
  rec_data rc0 = [] -> rec_calls rc0 = [] ->
  length (rec_data rc) = n /\ Forall2 P (rec_data rc) (rec_calls rc).
Proof.
  intros HP Hrun Hd0 Hc0.
  apply (for_each_range_partial
           (fun k rc1 => length (rec_data rc1) = k
                         /\ Forall2 P (rec_data rc1) (rec_calls rc1))
           n _ rc0 rc Hrun).
  - rewrite Hd0, Hc0. split; [done|constructor].
  - intros i rc1 rc2 _ [Hlen Hall] Hstep.
    apply replay_inv in Hstep as (tt & _ & -> & -> & _).
    split; [rewrite length_app; simpl; lia|].
    apply Forall2_app; [done|]. constructor; [apply HP|constructor].
Qed.

Lemma create_inv ns na nr tp n_replay max_step p seed w0 out :
  create ns na nr tp n_replay max_step p seed w0 = Some out ->
  exists rc,
    for_each (range n_replay) (replay max_step p seed)
      {| rec_world := expert_world (expert_rollout max_step seed w0);
         rec_t := None; rec_min_step := max_step; rec_max_step := 0%nat;
         rec_data := []; rec_calls := [] |} = Some rc
    /\ data out = rec_data rc
    /\ replay_calls out = rec_calls rc
    /\ expert_calls out = expert_log (expert_rollout max_step seed w0)
    /\ target_return (metadata out)
       = expert_target_return (expert_rollout max_step seed w0)
    /\ data_min_step (metadata out) = rec_min_step rc
    /\ data_max_step (metadata out) = rec_max_step rc.
Proof.
  unfold Data.create.
  destruct (for_each _ _ _) as [rc|]; [|done]. simpl.
  intros [= <-]. by exists rc.
Qed.

Lemma create_recorded (P : Item -> list Call -> Prop)
    ns na nr tp n_replay max_step p seed w0 out :
  (forall rc1, P (item_of (finished max_step p seed rc1))
                 (log (finished max_step p seed rc1))) ->
  create ns na nr tp n_replay max_step p seed w0 = Some out ->
  length (data out) = n_replay /\ Forall2 P (data out) (replay_calls out).
Proof.
  intros HP (rc & Hrun & -> & -> & _)%create_inv.
  by eapply replays_recorded.
Qed.

(** When [create] returns it has recorded [n_replay] episodes, each of
    the shape described by [episode_shape]. *)
Lemma create_records_episodes ns na nr tp n_replay max_step p seed w0 out :
  create ns na nr tp n_replay max_step p seed w0 = Some out ->
  length (data out) = n_replay
  /\ Forall2 (episode_shape max_step) (data out) (replay_calls out).
Proof.
  apply create_recorded. intros rc1. apply finished_shape.
Qed.


Lemma replay_without_steps p seed i rc :
  rec_t rc = None -> replay 0 p seed i rc = None.
Proof.
  intros Ht. unfold Data.replay.
  destruct (finished_shape 0 p seed rc) as (_ & _ & Hzero).
  by rewrite (Hzero eq_refl), Ht.
Qed.

(** C5 fails on the code.  With [max_step = 0] the inner loop never
    binds [t]; the first replay then reads [t], which raises, so for
    [n_replay >= 1] nothing at all is recorded, where [n_replay]
    episodes of length 0 are due.  (For [max_step >= 1] see
    [create_is_Some] and [create_records_episodes].) *)
Theorem create_raises_without_steps ns na nr tp n_replay p seed w0 :
  create ns na nr tp (S n_replay) 0 p seed w0 = None.
Proof.
  unfold Data.create, range. simpl.
  rewrite replay_without_steps by done. done.
Qed.

Lemma Forall2_right {A B} (P : B -> Prop) (l : list A) (k : list B) :
  Forall2 (fun _ y => P y) l k -> Forall P k.
Proof. induction 1; constructor; done. Qed.

Lemma Forall2_left {A B} (P : A -> Prop) (l : list A) (k : list B) :
  Forall2 (fun x _ => P x) l k -> Forall P l.
Proof. induction 1; constructor; done. Qed.

(** C6.  Provided [np.random.random()] answers in [[0, 1)]: with
    [random_play_p = 0] every recorded action is [policy[state]] for the
    state recorded with it, and the sampler is never called; with
    [random_play_p = 1] the recorded actions of a replay are, in order,
    the answers of [action_space.sample()] during that replay. *)
Theorem create_action_choice ns na nr tp n_replay max_step p seed w0 out :
  (forall w, (0 <= fst (random w))%Q /\ (fst (random w) < 1)%Q) ->
  create ns na nr tp n_replay max_step p seed w0 = Some out ->
  ((p == 0)%Q ->
     Forall2 (fun item calls =>
                item_actions item = policy <$> item_states item
                /\ sampled calls = [])
             (data out) (replay_calls out))
  /\ ((p == 1)%Q ->
        Forall2 (fun item calls => item_actions item = sampled calls)
                (data out) (replay_calls out)).
Proof.
  intros Hrange Hout. split; intros Hp.
  - eapply create_recorded; [|done]. intros rc1.
    by apply (finished_follows_policy Hrange).
  - eapply create_recorded; [|done]. intros rc1.
    by apply (finished_all_sampled Hrange).
Qed.

(** C9.  The [target_return] that [create] writes is the sum (added
    in order, from 0) of the rewards of the rollout that starts from
    [reset(seed)], takes [policy[state]] at every step and ends with the
    first terminated or truncated step, or after [max_step] steps; that
    rollout calls [reset] once, with [seed], and so does each of the
    [n_replay] replays. *)
Theorem create_target_return ns na nr tp n_replay max_step p seed w0 out :
  create ns na nr tp n_replay max_step p seed w0 = Some out ->
  target_return (metadata out)
  = sum_list_Q (rollout_rewards max_step (snd (reset seed w0))
                                (fst (reset seed w0)))
  /\ seeds (expert_calls out) = [seed]
  /\ length (replay_calls out) = n_replay
  /\ Forall (fun calls => seeds calls = [seed]) (replay_calls out).
Proof.
  intros Hout.
  destruct (create_recorded (fun _ calls => seeds calls = [seed])
              ns na nr tp n_replay max_step p seed w0 out) as [Hlen Hall];
    [intros rc1; apply finished_seeds|done|].
  apply create_inv in Hout as (rc & _ & _ & _ & -> & -> & _).
  unfold Data.expert_rollout. destruct (reset seed w0) as [state w]. simpl.
  split; [|split; [|split]].
  - by rewrite expert_loop_target.
  - by rewrite expert_loop_seeds.
  - apply Forall2_length in Hall. congruence.
  - by eapply Forall2_right.
Qed.

(** *** The step counters *)

Local Abbreviation counted := (@Data.counted World).

Lemma is_minimum_singleton x : is_minimum x [x].
Proof.
  split; [left|]. intros y Hy. apply list_elem_of_singleton in Hy as ->. done.
Qed.

Lemma is_maximum_singleton x : is_maximum x [x].
Proof.
  split; [left|]. intros y Hy. apply list_elem_of_singleton in Hy as ->. done.
Qed.

Lemma is_minimum_snoc m xs x :
  is_minimum m xs -> is_minimum (if (x <? m)%nat then x else m) (xs ++ [x]).
Proof.
  intros [Hin Hle]. destruct (x <? m)%nat eqn:Hlt.
  - apply Nat.ltb_lt in Hlt. split.
    + apply elem_of_app. right. left.
    + intros y [Hy|Hy]%elem_of_app.
      * specialize (Hle y Hy). lia.
      * apply list_elem_of_singleton in Hy as ->. done.
  - apply Nat.ltb_ge in Hlt. split.
    + apply elem_of_app. by left.
    + intros y [Hy|Hy]%elem_of_app; [by apply Hle|].
      apply list_elem_of_singleton in Hy as ->. done.
Qed.

Lemma is_maximum_snoc m xs x :
  is_maximum m xs -> is_maximum (if (m <? x)%nat then x else m) (xs ++ [x]).
Proof.
  intros [Hin Hle]. destruct (m <? x)%nat eqn:Hlt.
  - apply Nat.ltb_lt in Hlt. split.
    + apply elem_of_app. right. left.
    + intros y [Hy|Hy]%elem_of_app.
      * specialize (Hle y Hy). lia.
      * apply list_elem_of_singleton in Hy as ->. done.
  - apply Nat.ltb_ge in Hlt. split.
    + apply elem_of_app. by left.
    + intros y [Hy|Hy]%elem_of_app; [by apply Hle|].
      apply list_elem_of_singleton in Hy as ->. done.
Qed.

Lemma replay_counted max_step p seed k rc :
  (1 <= max_step)%nat ->
  counted max_step k rc ->
  exists rc', replay max_step p seed k rc = Some rc'
              /\ counted max_step (S k) rc'.
Proof.
  intros Hmax (Hlen & Hlast & Hzero & Hpos).
  destruct (finished_shape max_step p seed rc) as (Hshape & Ht & _).
  destruct Ht as [Hne Ht]; [lia|].
  destruct Hshape as (_ & _ & _ & Hle & Htimes & _).
  unfold Data.replay. rewrite Ht. simpl.
  set (r := finished max_step p seed rc) in *.
  set (ti := last_index (item_of r)) in *.
  assert (ti < max_step)%nat as Hti.
  { unfold ti, last_index. simpl in *. lia. }
  eexists. split; [done|]. unfold Data.counted. simpl.
  split; [rewrite length_app; simpl; lia|]. split; [|split; [lia|]].
  - apply Forall_app. split; [done|]. constructor; [|constructor].
    rewrite Htimes, last_lookup, length_seq.
    unfold last_index. simpl in *.
    rewrite lookup_seq_lt by lia. f_equal. lia.
  - intros _. rewrite fmap_app. simpl. fold ti.
    destruct (decide (k = 0)%nat) as [->|Hk].
    + destruct (Hzero eq_refl) as [-> ->].
      destruct (rec_data rc); [|done]. simpl.
      replace (ti <? max_step)%nat with true by (symmetry; apply Nat.ltb_lt; lia).
      split; [apply is_minimum_singleton|].
      destruct (0 <? ti)%nat eqn:H0; [apply is_maximum_singleton|].
      apply Nat.ltb_ge in H0. replace ti with 0%nat by lia.
      apply is_maximum_singleton.
    + destruct Hpos as [Hmin Hmaxi]; [lia|].
      split; [by apply is_minimum_snoc|by apply is_maximum_snoc].
Qed.

(** C10.  With [n_replay >= 1] and [max_step >= 1], [create] returns,
    and in what it writes [data_min_step] is the least and
    [data_max_step] the greatest, over the recorded episodes, of the
    timestep of the episode's last step (its length minus one); hence
    [data_min_step <= data_max_step]. *)
Theorem create_min_max_step ns na nr tp n_replay max_step p seed w0 :
  (1 <= n_replay)%nat -> (1 <= max_step)%nat ->
  exists out,
    create ns na nr tp n_replay max_step p seed w0 = Some out
    /\ length (data out) = n_replay
    /\ Forall (fun item => last (item_times item) = Some (last_index item))
              (data out)
    /\ is_minimum (data_min_step (metadata out)) (last_index <$> data out)
    /\ is_maximum (data_max_step (metadata out)) (last_index <$> data out)
    /\ (data_min_step (metadata out) <= data_max_step (metadata out))%nat.
Proof.
  intros Hn Hmax. unfold Data.create.
  destruct (for_each_range_total (counted max_step) n_replay
              (replay max_step p seed)
              {| rec_world := expert_world (expert_rollout max_step seed w0);
                 rec_t := None; rec_min_step := max_step; rec_max_step := 0%nat;
                 rec_data := []; rec_calls := [] |})
    as (rc & -> & Hlen & Hlast & _ & Hpos).
  - unfold Data.counted. simpl. split; [done|]. split; [constructor|]. split; [done|lia].
  - intros i rc _. by apply replay_counted.
  - destruct Hpos as [Hmin Hmaxi]; [lia|].
    eexists. split; [done|]. simpl.
    split; [done|]. split; [done|]. split; [done|]. split; [done|].
    destruct Hmin as [Hin _]. destruct Hmaxi as [_ Hle]. by apply Hle.
Qed.

(** *** What the calls show *)

Lemma draws_app l1 l2 : draws (l1 ++ l2) = draws l1 ++ draws l2.
Proof. apply omap_app. Qed.

Lemma players_app l1 l2 : players (l1 ++ l2) = players l1 ++ players l2.
Proof. apply omap_app. Qed.

Lemma step_actions_app l1 l2 :
  step_actions (l1 ++ l2) = step_actions l1 ++ step_actions l2.
Proof. apply omap_app. Qed.

Lemma expert_steps_calls (steps : list (nat * StepResult)) :
  step_results (expert_steps steps) = steps.*2
  /\ step_actions (expert_steps steps) = steps.*1
  /\ seeds (expert_steps steps) = []
  /\ draws (expert_steps steps) = []
  /\ sampled (expert_steps steps) = [].
Proof.
  unfold step_results, step_actions, seeds, draws, sampled, expert_steps.
  induction steps as [|[a res] steps (IH1 & IH2 & IH3 & IH4 & IH5)]; csimpl;
    [done|].
  rewrite IH1, IH2. done.
Qed.

Lemma visited_nil start : visited start [] = [].
Proof. done. Qed.

Lemma visited_cons start res rs :
  visited start (res :: rs) = start :: visited (next_state res) rs.
Proof. unfold visited. by rewrite fmap_cons. Qed.

Lemma stops_only_last_cons res rs :
  stops res = false -> stops_only_last rs -> stops_only_last (res :: rs).
Proof.
  intros Hres Hrs [|j] res' Hj Hlook; simpl in *.
  - by injection Hlook as <-.
  - apply (Hrs j); [lia|done].
Qed.

(** *** The expert rollout, step by step *)

Lemma expert_loop_steps n (e : Expert World) :
  exists steps : list (nat * StepResult),
    expert_log (expert_loop n e) = expert_log e ++ expert_steps steps
    /\ (length steps <= n)%nat
    /\ stops_only_last steps.*2
    /\ ((length steps < n)%nat ->
        exists res, last steps.*2 = Some res /\ stops res = true)
    /\ expert_target_return (expert_loop n e)
       = fold_left Qplus (reward <$> steps.*2) (expert_target_return e)
    /\ steps.*1 = policy <$> visited (expert_state e) steps.*2.
Proof.
  revert e. induction n as [|n IH]; intros e.
  - exists []. simpl. rewrite app_nil_r.
    split; [done|]. split; [done|]. split; [|split; [lia|done]].
    intros j res Hj. simpl in Hj. lia.
  - simpl.
    destruct (step (policy (expert_state e)) (expert_world e)) as [res w] eqn:Hstep.
    destruct (stops res) eqn:Hstops.
    + exists [(policy (expert_state e), res)]. simpl.
      split; [done|]. split; [lia|]. split; [|split; [|done]].
      * intros j res' Hj. simpl in Hj. lia.
      * intros _. by exists res.
    + destruct (IH {| expert_world := w;
                      expert_state := next_state res;
                      expert_target_return :=
                        (expert_target_return e + reward res)%Q;
                      expert_log :=
                        expert_log e
                        ++ [CallStep None (policy (expert_state e)) res] |})
        as (steps & Hlog & Hlen & Hlast & Hshort & Htarget & Hact).
      cbn [expert_log expert_state expert_target_return expert_world] in *.
      exists ((policy (expert_state e), res) :: steps).
      split; [|split; [simpl; lia|split; [|split; [|split]]]].
      * unfold expert_steps in *. rewrite fmap_cons, Hlog, <- app_assoc. done.
      * rewrite fmap_cons. by apply stops_only_last_cons.
      * intros Hlt. destruct Hshort as (res' & Hres' & Hstops'); [simpl in Hlt; lia|].
        exists res'. split; [|done]. rewrite fmap_cons.
        destruct (steps.*2) as [|res0 rs]; [done|]. done.
      * rewrite !fmap_cons. simpl. exact Htarget.
      * rewrite !fmap_cons, visited_cons, fmap_cons, Hact. done.
Qed.

(** X15.  The expert rollout of [create] calls [reset] once, with
    [seed], and never the generator or the sampler; it makes at most
    [max_step] steps, each with the policy's action for the state it is
    in, and none after a terminated or truncated one; it stops early
    only on such a step; and its [target_return] is the sum of the
    rewards of its steps. *)
Theorem expert_rollout_calls max_step seed w0 :
  let e := expert_rollout max_step seed w0 in
  let rs := step_results (expert_log e) in
  seeds (expert_log e) = [seed]
  /\ draws (expert_log e) = [] /\ sampled (expert_log e) = []
  /\ (length rs <= max_step)%nat
  /\ stops_only_last rs
  /\ ((length rs < max_step)%nat ->
      exists res, last rs = Some res /\ stops res = true)
  /\ step_actions (expert_log e) = policy <$> visited (fst (reset seed w0)) rs
  /\ expert_target_return e = sum_list_Q (reward <$> rs).
Proof.
  intros e rs. subst rs e. unfold Data.expert_rollout.
  destruct (reset seed w0) as [state w]. cbn [fst].
  destruct (expert_loop_steps max_step
              {| expert_world := w; expert_state := state;
                 expert_target_return := 0%Q;
                 expert_log := [CallReset seed state] |})
    as (steps & Hlog & Hlen & Hlast & Hshort & Htarget & Hact).
  cbn [expert_log expert_state expert_target_return expert_world] in *.
  rewrite Hlog, Htarget.
  destruct (expert_steps_calls steps) as (H1 & H2 & H3 & H4 & H5).
  rewrite step_results_app, seeds_app, draws_app, sampled_app, step_actions_app.
  rewrite H1, H2, H3, H4, H5. simpl.
  rewrite length_fmap. done.
Qed.

(** *** How a replay chooses and what it records *)

Lemma replay_step_chosen p t r :
  chosen policy p (states r) (actions r) (log r) ->
  let r' := fst (replay_step p t r) in
  chosen policy p (states r') (actions r') (log r').
Proof.
  intros (Hact & Hlp & Hls & Hdraw & Hpol & Hsam).
  destruct (replay_step_cases p t r)
    as (u & w1 & player & action & w2 & drawn & res & w3 & _ & Hdrawn & _ & ->).
  simpl.
  assert (draws drawn = [u] /\ players drawn = [] /\ step_actions drawn = []
          /\ sampled drawn = (if is_random player then [action] else [])
          /\ (player = RandomPlayer <-> (u < p)%Q)
          /\ (player = PolicyPlayer -> action = policy (state r)))
    as (Hd1 & Hd2 & Hd3 & Hd4 & Hd5 & Hd6).
  { destruct Hdrawn as [(Hlt & _ & -> & ->)|(Hle & -> & _ & -> & ->)].
    - repeat split; try done.
    - repeat split; try done. lra. }
  unfold chosen.
  rewrite !step_actions_app, !players_app, !draws_app, !sampled_app.
  rewrite Hd1, Hd2, Hd3, Hd4. simpl.
  rewrite zip_with_app by done. rewrite List.filter_app, fmap_app.
  rewrite !length_app. simpl.
  split; [by rewrite Hact at 1|]. split; [lia|]. split; [lia|].
  split; [apply Forall2_app; [done|by constructor]|].
  split; [apply Forall2_app; [done|by constructor]|].
  rewrite <- Hsam. by destruct player.
Qed.

Lemma finished_chosen max_step p seed rc :
  let r := finished max_step p seed rc in
  chosen policy p (states r) (actions r) (log r).
Proof.
  unfold Data.finished. apply replay_loop_invariant.
  - intros t r. apply replay_step_chosen.
  - destruct (replay_start_fresh seed rc) as (Hs & Ha & _ & _ & _ & _ & Hsam & _).
    unfold Data.replay_start in *.
    destruct (reset seed (rec_world rc)) as [state w]. simpl in *.
    unfold chosen. simpl. repeat split; constructor.
Qed.

Lemma replay_step_chained start p t r :
  states r ++ [state r] = start :: (next_state <$> step_results (log r)) ->
  let r' := fst (replay_step p t r) in
  states r' ++ [state r'] = start :: (next_state <$> step_results (log r')).
Proof.
  intros Hchain.
  destruct (replay_step_results p t r) as (res & Hres & _).
  destruct (replay_step_cases p t r)
    as (u & w1 & player & action & w2 & drawn & res' & w3 & _ & _ & _ & Heq).
  rewrite Heq in Hres |- *. simpl in *.
  rewrite Hres, fmap_app, Hchain. simpl.
  assert (res' = res) as ->; [|done].
  rewrite !step_results_app in Hres. simpl in Hres.
  assert (step_results drawn ++ [res'] = [res]) as Hlast
    by (eapply app_inv_head; rewrite <- Hres; done).
  destruct (step_results drawn) as [|x [|y l]]; simpl in Hlast; congruence.
Qed.

Lemma finished_traced max_step p seed rc :
  let r := finished max_step p seed rc in
  traced (item_of r) (log r).
Proof.
  intros r.
  destruct (finished_chosen max_step p seed rc) as (Hact & _).
  destruct (finished_aligned max_step p seed rc) as (Hls & _ & _ & Hrew).
  fold r in Hact, Hls, Hrew.
  split; [done|]. split; [done|]. simpl.
  exists (state (replay_start seed rc)).
  assert (states r ++ [state r]
          = state (replay_start seed rc)
            :: (next_state <$> step_results (log r))) as Hchain.
  { unfold r, Data.finished.
    apply (replay_loop_invariant
             (fun r => states r ++ [state r]
                       = state (replay_start seed rc)
                         :: (next_state <$> step_results (log r)))).
    - intros t r0. apply replay_step_chained.
    - destruct (replay_start_fresh seed rc) as (-> & _ & _ & _ & _ & -> & _).
      done. }
  unfold visited. rewrite <- Hchain, <- Hls.
  by rewrite take_app_length.
Qed.

(** X16.  In every replay that [create] records, the actions and the
    rewards are those of the calls of [step], in order, and every
    recorded state but the first is the state the previous step
    returned. *)
Theorem create_records_trace ns na nr tp n_replay max_step p seed w0 out :
  create ns na nr tp n_replay max_step p seed w0 = Some out ->
  Forall2 traced (data out) (replay_calls out).
Proof.
  intros Hout. eapply create_recorded; [|done].
  intros rc1. apply finished_traced.
Qed.

(** X17.  Whatever [random_play_p] is, a recorded replay draws from
    the generator once per step; a step is the sampler's exactly when
    its draw is below [random_play_p]; a step of the policy records
    [policy[state]]; and the sampler is called once per step of its
    own, its answer being the action recorded. *)
Theorem create_choice_by_draw ns na nr tp n_replay max_step p seed w0 out :
  create ns na nr tp n_replay max_step p seed w0 = Some out ->
  Forall2 (fun item calls =>
             chosen policy p (item_states item) (item_actions item) calls
             /\ length (draws calls) = length (item_states item))
          (data out) (replay_calls out).
Proof.
  intros Hout. eapply create_recorded; [|done].
  intros rc1. split; [apply finished_chosen|].
  destruct (finished_chosen max_step p seed rc1) as (_ & Hlp & Hls & Hdraw & _).
  simpl. apply Forall2_length in Hdraw. lia.
Qed.

(** *** When [create] returns *)


(** X14.  In what [create] writes, [data_min_step <= data_max_step]
    holds exactly when a replay was recorded or [max_step = 0]: without
    replays the two counters keep their initial values [max_step]
    and 0. *)
Theorem create_min_le_max_iff ns na nr tp n_replay max_step p seed w0 out :
  create ns na nr tp n_replay max_step p seed w0 = Some out ->
  ((data_min_step (metadata out) <= data_max_step (metadata out))%nat
   <-> (1 <= n_replay)%nat \/ max_step = 0%nat)
  /\ (n_replay = 0%nat ->
      data_min_step (metadata out) = max_step
      /\ data_max_step (metadata out) = 0%nat /\ data out = []).
Proof.
  intros Hout. destruct n_replay as [|n].
  - unfold Data.create in Hout. simpl in Hout. injection Hout as <-. simpl.
    split; [lia|done].
  - split; [|lia]. destruct max_step as [|m].
    + exfalso. unfold Data.create, range in Hout. simpl in Hout.
      rewrite replay_without_steps in Hout by done. done.
    + apply create_inv in Hout as (rc & Hrun & _ & _ & _ & _ & -> & ->).
      destruct (for_each_range_total (counted (S m)) (S n)
                  (replay (S m) p seed)
                  {| rec_world := expert_world (expert_rollout (S m) seed w0);
                     rec_t := None; rec_min_step := S m; rec_max_step := 0%nat;
                     rec_data := []; rec_calls := [] |})
        as (rc' & Hrun' & _ & _ & _ & Hpos).
      * unfold Data.counted. simpl. split; [done|]. split; [constructor|].
        split; [done|lia].
      * intros i rc1 _. apply replay_counted. lia.
      * rewrite Hrun in Hrun'. injection Hrun' as <-.
        destruct Hpos as [[Hin _] [_ Hle]]; [lia|].
        split; [lia|]. intros _. by apply Hle.
Qed.

End Facts.

(** *** The corridor *)

Lemma corridor_random_range (w : nat * nat) :
  (0 <= fst (corridor_random w))%Q /\ (fst (corridor_random w) < 1)%Q.
Proof.
  unfold corridor_random. simpl. destruct (Nat.even (snd w)); split; lra.
Qed.

(** Two replays of at most five steps with [random_play_p = 1/2]: the
    expert collects 3, both episodes stop at the terminal third step. *)
Example corridor_create_2_5 :
  exists out,
    corridor_create 2 5 (1 # 2) = Some out
    /\ target_return (metadata out) = 3%Q
    /\ data_min_step (metadata out) = 2%nat
    /\ data_max_step (metadata out) = 2%nat
    /\ data out
       = [ {| item_states := [0; 1; 2]; item_actions := [1; 0; 1];
              item_rewards := [1; 1; 1]%Q; item_times := [0; 1; 2] |};
           {| item_states := [0; 1; 2]; item_actions := [0; 1; 0];
              item_rewards := [1; 1; 1]%Q; item_times := [0; 1; 2] |} ]%nat.
Proof. eexists. split; [vm_compute; reflexivity|]. repeat split. Qed.

Lemma create_action_choice_witness :
  (exists out,
     corridor_create 2 5 0 = Some out
     /\ Forall2 (fun item calls =>
                   item_actions item = corridor_policy <$> item_states item
                   /\ sampled calls = [])
                (data out) (replay_calls out))
  /\ (exists out,
        corridor_create 2 5 1 = Some out
        /\ Forall2 (fun item calls => item_actions item = sampled calls)
                   (data out) (replay_calls out)).
Proof.
  split.
  - destruct (corridor_create 2 5 0) as [out|] eqn:Hout;
      [|vm_compute in Hout; discriminate].
    exists out. split; [reflexivity|].
    apply (create_action_choice corridor_reset corridor_step corridor_state
             corridor_random corridor_sample corridor_policy
             _ _ _ _ _ _ _ _ _ out corridor_random_range Hout).
    reflexivity.
  - destruct (corridor_create 2 5 1) as [out|] eqn:Hout;
      [|vm_compute in Hout; discriminate].
    exists out. split; [reflexivity|].
    apply (create_action_choice corridor_reset corridor_step corridor_state
             corridor_random corridor_sample corridor_policy
             _ _ _ _ _ _ _ _ _ out corridor_random_range Hout).
    reflexivity.
Defined.

Lemma create_target_return_witness :
  exists out,
    corridor_create 2 5 (1 # 2) = Some out
    /\ (target_return (metadata out) == 3)%Q
    /\ Forall (fun calls => seeds calls = [42%Z]) (replay_calls out).
Proof.
  destruct (corridor_create 2 5 (1 # 2)) as [out|] eqn:Hout;
    [|vm_compute in Hout; discriminate].
  exists out. split; [reflexivity|].
  destruct (create_target_return corridor_reset corridor_step corridor_state
              corridor_random corridor_sample corridor_policy
              _ _ _ _ _ _ _ _ _ out Hout) as (Htarget & _ & _ & Hseeds).
  split; [|exact Hseeds].
  rewrite Htarget. reflexivity.
Defined.

Lemma create_min_max_step_witness :
  (1 <= 2)%nat /\ (1 <= 5)%nat
  /\ exists out,
       corridor_create 2 5 (1 # 2) = Some out
       /\ is_minimum (data_min_step (metadata out)) (last_index <$> data out)
       /\ is_maximum (data_max_step (metadata out)) (last_index <$> data out)
       /\ (data_min_step (metadata out) <= data_max_step (metadata out))%nat.
Proof.
  split; [lia|]. split; [lia|].
  destruct (create_min_max_step corridor_reset corridor_step corridor_state
              corridor_random corridor_sample corridor_policy
              4 2 2 (1 # 10) 2 5 (1 # 2) 42 (0%nat, 0%nat))
    as (out & Hout & _ & _ & Hmin & Hmax & Hle); [lia|lia|].
  exists out. split; [exact Hout|]. split; [exact Hmin|]. split; [exact Hmax|exact Hle].
Defined.

(** With [max_step = 0] one replay is asked for and none is recorded. *)
Example corridor_create_1_0 : corridor_create 1 0 (1 # 2) = None.
Proof. reflexivity. Qed.


Lemma create_min_le_max_iff_witness :
  exists out,
    corridor_create 0 5 (1 # 2) = Some out
    /\ data_min_step (metadata out) = 5%nat
    /\ data_max_step (metadata out) = 0%nat
    /\ ~ (data_min_step (metadata out) <= data_max_step (metadata out))%nat.
Proof.
  destruct (corridor_create 0 5 (1 # 2)) as [out|] eqn:Hout;
    [|vm_compute in Hout; discriminate].
  exists out. split; [reflexivity|].
  destruct (create_min_le_max_iff corridor_reset corridor_step corridor_state
              corridor_random corridor_sample corridor_policy
              _ _ _ _ _ _ _ _ _ out Hout) as [Hiff Hzero].
  destruct (Hzero eq_refl) as (Hmin & Hmax & _).
  split; [exact Hmin|]. split; [exact Hmax|].
  intros Hle. apply Hiff in Hle. lia.
Defined.

Lemma create_records_trace_witness :
  exists out,
    corridor_create 2 5 (1 # 2) = Some out
    /\ Forall2 traced (data out) (replay_calls out).
Proof.
  destruct (corridor_create 2 5 (1 # 2)) as [out|] eqn:Hout;
    [|vm_compute in Hout; discriminate].
  exists out. split; [reflexivity|].
  exact (create_records_trace corridor_reset corridor_step corridor_state
           corridor_random corridor_sample corridor_policy
           _ _ _ _ _ _ _ _ _ out Hout).
Defined.

Lemma create_choice_by_draw_witness :
  exists out,
    corridor_create 2 5 (1 # 2) = Some out
    /\ Forall2 (fun item calls =>
                  chosen corridor_policy (1 # 2) (item_states item)
                         (item_actions item) calls
                  /\ length (draws calls) = length (item_states item))
               (data out) (replay_calls out).
Proof.
  destruct (corridor_create 2 5 (1 # 2)) as [out|] eqn:Hout;
    [|vm_compute in Hout; discriminate].
  exists out. split; [reflexivity|].
  exact (create_choice_by_draw corridor_reset corridor_step corridor_state
           corridor_random corridor_sample corridor_policy
           _ _ _ _ _ _ _ _ _ out Hout).
Defined.

End DataFacts.

(** ** Facts about [MDPFactory.play] *)

Module PlayFacts.
Import Data Play.

Section Facts.
Context {World : Type}.
Variable reset : Z -> World -> nat * World.
Variable step : nat -> World -> StepResult * World.
Variable policy : list nat.

Local Abbreviation play_loop := (Play.play_loop World step policy).
Local Abbreviation play := (Play.play World reset step policy).
Local Abbreviation expert_loop := (Data.expert_loop World step (policy_at policy)).
Local Abbreviation expert_rollout :=
  (Data.expert_rollout World reset step (policy_at policy)).

Lemma play_loop_steps n (st st' : Playing World) :
  play_loop n st = Some st' ->
  exists steps : list (nat * StepResult),
    play_log st' = play_log st ++ expert_steps steps
    /\ (length steps <= n)%nat
    /\ stops_only_last steps.*2
    /\ ((length steps < n)%nat ->
        exists res, last steps.*2 = Some res /\ stops res = true)
    /\ Forall2 (fun action obs => policy !! obs = Some action)
               steps.*1 (visited (observation st) steps.*2).
Proof.
  revert st. induction n as [|n IH]; intros st.
  - intros [= <-]. exists []. simpl. rewrite app_nil_r.
    split; [done|]. split; [done|]. split; [|split; [lia|constructor]].
    intros j res Hj. simpl in Hj. lia.
  - simpl. destruct (policy !! observation st) as [action|] eqn:Haction; [|done].
    simpl. destruct (step action (play_world st)) as [res w] eqn:Hstep.
    destruct (stops res) eqn:Hstops.
    + intros [= <-]. exists [(action, res)]. simpl.
      split; [done|]. split; [lia|]. split; [|split].
      * intros j res' Hj. simpl in Hj. lia.
      * intros _. by exists res.
      * rewrite DataFacts.visited_cons, DataFacts.visited_nil. by repeat constructor.
    + intros Hrun. destruct (IH _ Hrun)
        as (steps & Hlog & Hlen & Hlast & Hshort & Hact).
      cbn [play_log observation play_world] in *.
      exists ((action, res) :: steps).
      split; [|split; [simpl; lia|split; [|split]]].
      * unfold expert_steps in *. rewrite fmap_cons, Hlog, <- app_assoc. done.
      * rewrite fmap_cons. by apply DataFacts.stops_only_last_cons.
      * intros Hlt. destruct Hshort as (res' & Hres' & Hstops'); [simpl in Hlt; lia|].
        exists res'. split; [|done]. rewrite fmap_cons.
        destruct (steps.*2) as [|res0 rs]; [done|]. done.
      * rewrite !fmap_cons, DataFacts.visited_cons. by constructor.
Qed.

Lemma play_loop_expert n (st st' : Playing World) target_return :
  play_loop n st = Some st' ->
  let e := expert_loop n {| expert_world := play_world st;
                            expert_state := observation st;
                            expert_target_return := target_return;
                            expert_log := play_log st |} in
  expert_log e = play_log st' /\ expert_world e = play_world st'
  /\ expert_state e = observation st'.
Proof.
  revert st target_return. induction n as [|n IH]; intros st target_return.
  - by intros [= <-].
  - simpl. destruct (policy !! observation st) as [action|] eqn:Haction; [|done].
    assert (policy_at policy (observation st) = action) as Hat
      by (unfold policy_at; by rewrite Haction).
    simpl. rewrite !Hat.
    destruct (step action (play_world st)) as [res w] eqn:Hstep.
    destruct (stops res).
    + intros [= <-]. cbn. repeat split.
    + intros Hrun. exact (IH _ _ Hrun).
Qed.

(** X12.  When [play] returns it has called [reset] once, with seed 42,
    and neither the generator nor the sampler; it has made at most
    [n_steps] steps, none after a terminated or truncated one, and
    fewer than [n_steps] only when the last one was such; every action
    is the entry of the policy array for the observation at hand; and
    the calls are those of the expert rollout of [create] for the same
    policy with [seed = 42] and [max_step = n_steps]. *)
Theorem play_calls n_steps w0 st :
  play n_steps w0 = Some st ->
  let rs := step_results (play_log st) in
  seeds (play_log st) = [42%Z]
  /\ draws (play_log st) = [] /\ sampled (play_log st) = []
  /\ (length rs <= n_steps)%nat
  /\ stops_only_last rs
  /\ ((length rs < n_steps)%nat ->
      exists res, last rs = Some res /\ stops res = true)
  /\ Forall2 (fun action obs => policy !! obs = Some action)
             (step_actions (play_log st)) (visited (fst (reset 42 w0)) rs)
  /\ play_log st = expert_log (expert_rollout n_steps 42 w0).
Proof.
  unfold Play.play, Data.expert_rollout.
  destruct (reset 42 w0) as [obs w]. cbn [fst]. intros Hrun.
  destruct (play_loop_expert _ _ _ 0%Q Hrun) as (Hexpert & _).
  destruct (play_loop_steps _ _ _ Hrun)
    as (steps & Hlog & Hlen & Hlast & Hshort & Hact).
  cbn [play_log observation play_world] in *.
  rewrite Hexpert. rewrite Hlog.
  destruct (DataFacts.expert_steps_calls steps) as (H1 & H2 & H3 & H4 & H5).
  rewrite DataFacts.step_results_app, DataFacts.seeds_app, DataFacts.draws_app,
    DataFacts.sampled_app, DataFacts.step_actions_app.
  rewrite H1, H2, H3, H4, H5. simpl. rewrite length_fmap. done.
Qed.

(** X18.  When the policy array has an entry for every state the model
    can return, [play] raises nothing. *)
Theorem play_returns n_steps w0 :
  (forall seed w, (fst (reset seed w) < length policy)%nat) ->
  (forall action w, (next_state (fst (step action w)) < length policy)%nat) ->
  is_Some (play n_steps w0).
Proof.
  intros Hreset Hstep. unfold Play.play.
  pose proof (Hreset 42%Z w0) as Hobs.
  destruct (reset 42 w0) as [obs w]. simpl in Hobs.
  generalize [CallReset 42 obs] as calls. revert obs w Hobs.
  induction n_steps as [|n IH]; intros obs w Hobs calls; simpl; [by eexists|].
  destruct (lookup_lt_is_Some_2 policy obs Hobs) as [action ->]. simpl.
  pose proof (Hstep action w) as Hnext.
  destruct (step action w) as [res w']. simpl in Hnext.
  destruct (stops res); [by eexists|]. by apply IH.
Qed.

End Facts.

Lemma play_calls_witness :
  exists st,
    Play.play (nat * nat) corridor_reset corridor_step [0; 0; 0; 0]%nat 5 (0, 0)%nat
    = Some st
    /\ length (step_results (play_log st)) = 3%nat
    /\ seeds (play_log st) = [42%Z].
Proof.
  destruct (Play.play (nat * nat) corridor_reset corridor_step [0; 0; 0; 0]%nat 5
              (0, 0)%nat) as [st|] eqn:Hrun; [|vm_compute in Hrun; discriminate].
  exists st. split; [reflexivity|].
  destruct (play_calls corridor_reset corridor_step [0; 0; 0; 0]%nat 5 (0, 0)%nat
              st Hrun) as (Hseeds & _).
  split; [|exact Hseeds].
  vm_compute in Hrun. injection Hrun as <-. reflexivity.
Defined.

Lemma play_returns_witness :
  is_Some (Play.play (nat * nat) corridor_reset loop_step [0; 0; 0; 0]%nat 9
             (0, 0)%nat).
Proof.
  apply (play_returns corridor_reset loop_step [0; 0; 0; 0]%nat).
  - intros seed w. simpl. lia.
  - intros action w. cbn [loop_step fst next_state length].
    apply Nat.mod_upper_bound. lia.
Defined.

End PlayFacts.
